(** * Bias directions in word embeddings: a model of [ethically/we/core.py]

    The development embeds the class [BiasWordsEmbedding] of
    [src/ethically/we/core.py]: direction identification, projection and
    bias measures, the neutralize and equalize steps of [debias], the
    extraction of neutral words and [learn_full_specific_words].

    Numbers.  A numpy float is a binary64 floating-point number of
    IEEE 754, with the operations of the processor: every sum, product,
    quotient and square root is rounded to the nearest number, overflows
    to an infinity, and gives [NaN] where numpy does without raising
    ([0/0], the square root of a negative number).  Comparisons with
    [NaN] are false.

    Objects.  Python objects that are mutated and shared (the
    [KeyedVectors] store and the [BiasWordsEmbedding] instance) live in a
    heap and are referred to by location; methods are state transformers
    that return either an exception or a value, together with the heap as
    it is when they stop.

    Console output (the verbose mode), plotting and the evaluation on
    benchmark files have no part in the properties below and are left
    out. *)

From Stdlib Require Import ZArith Lia List Bool Ascii String Floats.
From stdpp Require Import gmap strings.
Import ListNotations.

(** ** Scalars: numpy's [float64] *)

Module Np.

Definition npfloat : Type := float.

Definition NaN : npfloat := nan.

Definition fneg (x : npfloat) : npfloat := (- x)%float.
Definition fadd (x y : npfloat) : npfloat := (x + y)%float.
Definition fsub (x y : npfloat) : npfloat := (x - y)%float.
Definition fmul (x y : npfloat) : npfloat := (x * y)%float.
Definition fdiv (x y : npfloat) : npfloat := (x / y)%float.
Definition fsqrt (x : npfloat) : npfloat := PrimFloat.sqrt x.
Definition fabs (x : npfloat) : npfloat := PrimFloat.abs x.

(** Comparisons: every comparison with [NaN] is false. *)
Definition flt (x y : npfloat) : bool := (x <? y)%float.
Definition fle (x y : npfloat) : bool := (x <=? y)%float.
Definition fge (x y : npfloat) : bool := fle y x.

Definition is_nan (x : npfloat) : bool := PrimFloat.is_nan x.

(** A count ([len], or the length of an axis) as a float. *)
Definition of_count (n : nat) : npfloat :=
  of_uint63 (Uint63.of_Z (Z.of_nat n)).

(** ** Vectors: one-dimensional numpy arrays

    All rows of a [KeyedVectors] matrix have one length, and so has every
    direction computed from them; operands of different shapes, on which
    numpy raises, are outside the model (the shorter operand decides the
    length of the result). *)

Definition vec : Type := list npfloat.

Fixpoint zip_with_f (f : npfloat -> npfloat -> npfloat) (a b : vec) : vec :=
  match a, b with
  | x :: a', y :: b' => f x y :: zip_with_f f a' b'
  | _, _ => []
  end.

Definition vadd : vec -> vec -> vec := zip_with_f fadd.
Definition vsub : vec -> vec -> vec := zip_with_f fsub.
Definition vneg (a : vec) : vec := map fneg a.
(** [s * v] for a scalar [s]. *)
Definition vscale (s : npfloat) (v : vec) : vec := map (fmul s) v.
(** [v / s] for a scalar [s]. *)
Definition vdivs (v : vec) (s : npfloat) : vec := map (fun x => fdiv x s) v.

(** [a @ b], the inner product: the products are added to an accumulator
    one after the other, from the first coordinate on.  (The BLAS routine
    behind numpy may sum in another order; the general theorems below use
    no property of the order, and the concrete runs have been chosen so
    that the usual orders agree on them.) *)
Fixpoint vdot_from (acc : npfloat) (a b : vec) : npfloat :=
  match a, b with
  | x :: a', y :: b' => vdot_from (fadd acc (fmul x y)) a' b'
  | _, _ => acc
  end.

Definition vdot (a b : vec) : npfloat := vdot_from 0%float a b.

(** [np.linalg.norm]. *)
Definition norm (v : vec) : npfloat := fsqrt (vdot v v).

(** [np.sum(vs, axis=0)] of a non-empty list of vectors: the rows are
    added one after the other, starting from the first. *)
Definition vsum (vs : list vec) : vec :=
  match vs with
  | [] => []
  | v :: vs' => fold_left vadd vs' v
  end.

(** [np.mean(vs, axis=0)] of a non-empty list of vectors. *)
Definition vmean (vs : list vec) : vec :=
  vdivs (vsum vs) (of_count (length vs)).

End Np.
Export Np.

(** ** The helpers of [ethically/we/utils.py] *)

Module Utils.

(** Modelled from the spec: [normalize] of [utils.py], which is imported
    by [core.py] and is not part of the sources.  The spec gives
    "returns v/‖v‖; fails (or returns v unchanged / NaN) when ‖v‖=0".
    The quotient is taken as numpy computes it, which on a vector of norm
    zero gives [NaN] in every coordinate, without raising.  The theorems
    below that mention [normalize] hold whatever it returns, and no
    concrete run below normalizes a vector of norm zero. *)
Definition normalize (v : vec) : vec := vdivs v (norm v).

(** Modelled from the spec: [cosine_similarity] of [utils.py]:
    "(a·b)/(‖a‖‖b‖)". *)
Definition cosine_similarity (a b : vec) : npfloat :=
  fdiv (vdot a b) (fmul (norm a) (norm b)).

(** Modelled from the spec: [project_vector] of [utils.py]:
    "(v·d) d", for a direction [d] of unit norm. *)
Definition project_vector (v d : vec) : vec := vscale (vdot v d) d.

(** Modelled from the spec: [reject_vector] of [utils.py]:
    "v − project_vector(v,d)". *)
Definition reject_vector (v d : vec) : vec := vsub v (project_vector v d).

(** Modelled from the spec: [project_reject_vector] of [utils.py]:
    "returns both parts from one dot product". *)
Definition project_reject_vector (v d : vec) : vec * vec :=
  let projected_vector := project_vector v d in
  (projected_vector, vsub v projected_vector).

End Utils.
Export Utils.

(** ** The embedding store: gensim's [KeyedVectors]

    The store is an external collaborator.  It is modelled by what the
    class uses of it: the vocabulary in its enumeration order, each word
    with its row of the matrix [syn0]. *)

Module Gensim.

Definition KeyedVectors : Type := list (string * vec).

(** [model.vocab], enumerated. *)
Definition vocab (kv : KeyedVectors) : list string := map fst kv.

(** [model[word]] for a single word; [None] stands for the [KeyError]. *)
Fixpoint word_vec (kv : KeyedVectors) (word : string) : option vec :=
  match kv with
  | [] => None
  | (w, v) :: kv' => if String.eqb w word then Some v else word_vec kv' word
  end.

(** [word in model]. *)
Definition contains (kv : KeyedVectors) (word : string) : bool :=
  match word_vec kv word with Some _ => true | None => false end.

(** [model.syn0[model.vocab[word].index] = new_vector]. *)
Fixpoint set_row (kv : KeyedVectors) (word : string) (new_vector : vec)
  : KeyedVectors :=
  match kv with
  | [] => []
  | (w, v) :: kv' =>
      if String.eqb w word then (w, new_vector) :: kv'
      else (w, v) :: set_row kv' word new_vector
  end.

(** [model.init_sims(replace=True)]: every row is divided by its L2 norm. *)
Definition init_sims_replace (kv : KeyedVectors) : KeyedVectors :=
  map (fun '(w, v) => (w, vdivs v (fsqrt (vdot v v)))) kv.

(** [model.cosine_similarities(vector_1, vectors_all)]. *)
Definition cosine_similarities (vector_1 : vec) (vectors_all : list vec)
  : list npfloat :=
  let norm_1 := norm vector_1 in
  map (fun v => fdiv (vdot v vector_1) (fmul norm_1 (norm v))) vectors_all.

End Gensim.
Export Gensim.

(** ** Objects, heap and exceptions *)

Definition loc : Type := nat.

(** The attributes of a [BiasWordsEmbedding] instance; [model] is a
    reference to a store in the heap. *)
Record BiasWordsEmbedding : Type := mkBiasWordsEmbedding {
  model : loc;
  only_lower : bool;
  _verbose : bool;
  direction : option vec;
  positive_end : option string;
  negative_end : option string
}.

Record heap : Type := mkHeap {
  models : gmap nat KeyedVectors;
  instances : gmap nat BiasWordsEmbedding
}.

Inductive exn : Type :=
| TypeError (what : string)
| ValueError_method (valid : list string) (given : string)
| ValueError_same_ends (word : string)
| RuntimeError_direction_not_identified
| RuntimeError_first_pc (ratio : npfloat)
| KeyError (word : string)
| IndexError
| ValueError (what : string)
| ExternalError (origin : string)
| Unsupported (what : string)
| NoSuchObject (l : loc).

(** A method call: from a heap to an exception or a value, and the heap
    left behind (mutations made before an exception stay). *)
Definition M (A : Type) : Type := heap -> (exn + A) * heap.

Definition ret {A} (a : A) : M A := fun h => (inr a, h).
Definition raise {A} (e : exn) : M A := fun h => (inl e, h).
Definition bind {A B} (c : M A) (k : A -> M B) : M B :=
  fun h => match c h with
           | (inr a, h') => k a h'
           | (inl e, h') => (inl e, h')
           end.

Notation "'let!' x ':=' c 'in' k" := (bind c (fun x => k))
  (at level 10, x name, c at level 100, k at level 200, only parsing).
Notation "'let!' ' p ':=' c 'in' k" :=
  (bind c (fun x => match x with p => k end))
  (at level 10, p pattern, c at level 100, k at level 200, only parsing).
Notation "'do!' c 'in' k" := (bind c (fun _ => k))
  (at level 10, c at level 100, k at level 200, only parsing).

Definition lift_exn {A} (r : exn + A) : M A := fun h => (r, h).

Fixpoint for_each {A} (body : A -> M unit) (l : list A) : M unit :=
  match l with
  | [] => ret tt
  | x :: l' => do! body x in for_each body l'
  end.

Fixpoint map_M {A B} (f : A -> M B) (l : list A) : M (list B) :=
  match l with
  | [] => ret []
  | x :: l' => let! y := f x in let! ys := map_M f l' in ret (y :: ys)
  end.

Definition get_instance (self : loc) : M BiasWordsEmbedding :=
  fun h => match instances h !! self with
           | Some o => (inr o, h)
           | None => (inl (NoSuchObject self), h)
           end.

Definition set_instance (self : loc) (o : BiasWordsEmbedding) : M unit :=
  fun h => (inr tt, mkHeap (models h) (<[self := o]> (instances h))).

Definition get_model (m : loc) : M KeyedVectors :=
  fun h => match models h !! m with
           | Some kv => (inr kv, h)
           | None => (inl (NoSuchObject m), h)
           end.

Definition set_model (m : loc) (kv : KeyedVectors) : M unit :=
  fun h => (inr tt, mkHeap (<[m := kv]> (models h)) (instances h)).

Definition new_instance (o : BiasWordsEmbedding) : M loc :=
  fun h => let l := fresh (dom (instances h)) in
           (inr l, mkHeap (models h) (<[l := o]> (instances h))).

Definition new_model (kv : KeyedVectors) : M loc :=
  fun h => let l := fresh (dom (models h)) in
           (inr l, mkHeap (<[l := kv]> (models h)) (instances h)).

(** Modelled from the spec: [update_word_vector] of [utils.py], the
    "in-place per-word vector replacement" of the store. *)
Definition update_word_vector (m : loc) (word : string) (new_vector : vec)
  : M unit :=
  let! kv := get_model m in
  if contains kv word then set_model m (set_row kv word new_vector)
  else raise (KeyError word).

Definition in_list (x : string) (l : list string) : bool :=
  existsb (String.eqb x) l.

(** ** The class [BiasWordsEmbedding] *)

Definition DIRECTION_METHODS : list string := ["single"; "sum"; "pca"]%string.
Definition DEBIAS_METHODS : list string :=
  ["neutralize"; "hard"; "soft"]%string.
Definition FIRST_PC_THRESHOLD : npfloat := 0.5%float.
Definition MAX_NON_SPECIFIC_EXAMPLES : Z := 1000%Z.

(** The [definitional] argument of [_identify_direction]: the two words of
    one pair for the method [single], a list of pairs for [sum] and
    [pca]. *)
Inductive definitional_words : Type :=
| OnePair (words : list string)
| Pairs (pairs : list (string * string)).

(** A fitted [sklearn.decomposition.PCA]. *)
Record PCA : Type := mkPCA {
  explained_variance_ratio_ : list npfloat;
  components_ : list vec
}.

Section BiasWordsEmbedding.

(** External libraries, taken as they are. *)
(** [PCA(n_components).fit(matrix)] of scikit-learn. *)
Variable PCA_fit : nat -> list vec -> exn + PCA.
(** [x ** c] of numpy. *)
Variable np_power : npfloat -> npfloat -> npfloat.
(** [df.sort_values('projection', ascending=False)] of pandas. *)
Variable sort_values_descending :
  list (string * npfloat) -> list (string * npfloat).
(** [str.lower], [str.upper] and [str.title] of Python. *)
Variables lower upper title : string -> string.
(** [np.random.seed(RANDOM_STATE); np.random.shuffle(data)]. *)
Variable shuffle : list (vec * bool) -> list (vec * bool).
(** [LinearSVC(...).fit(X, y)] and [clf.predict] of scikit-learn. *)
Variable LinearSVC : Type.
Variable LinearSVC_fit : list vec -> list Z -> exn + LinearSVC.
Variable predict : LinearSVC -> vec -> bool.

(** The [isinstance] check of [__init__] holds by typing: [model] refers
    to a [KeyedVectors]. *)
Definition __init__ (model : loc) (only_lower verbose : bool) : M loc :=
  new_instance (mkBiasWordsEmbedding model only_lower verbose None None None).

Definition __copy__ (self : loc) : M loc :=
  let! o := get_instance self in
  let! bias_words_embedding := __init__ (model o) false false in
  let! c := get_instance bias_words_embedding in
  do! set_instance bias_words_embedding
        (mkBiasWordsEmbedding (model c) (only_lower c) (_verbose c)
           (direction o) (positive_end o) (negative_end o)) in
  ret bias_words_embedding.

Definition __deepcopy__ (self : loc) : M loc :=
  let! bias_words_embedding := __copy__ self in
  let! c := get_instance bias_words_embedding in
  let! kv := get_model (model c) in
  let! m := new_model kv in
  do! set_instance bias_words_embedding
        (mkBiasWordsEmbedding m (only_lower c) (_verbose c)
           (direction c) (positive_end c) (negative_end c)) in
  ret bias_words_embedding.

Definition __getitem__ (self : loc) (key : string) : M vec :=
  let! o := get_instance self in
  let! kv := get_model (model o) in
  match word_vec kv key with
  | Some v => ret v
  | None => raise (KeyError key)
  end.

Definition __contains__ (self : loc) (item : string) : M bool :=
  let! o := get_instance self in
  let! kv := get_model (model o) in
  ret (contains kv item).

Definition _filter_words_by_model (self : loc) (words : list string)
  : M (list string) :=
  let! kept := map_M (fun word =>
                        let! present := __contains__ self word in
                        ret (word, present)) words in
  ret (map (fun wp : string * bool => fst wp)
         (List.filter (fun wp : string * bool => snd wp) kept)).

Definition _is_direction_identified (self : loc) : M unit :=
  let! o := get_instance self in
  match direction o with
  | None => raise RuntimeError_direction_not_identified
  | Some _ => ret tt
  end.

(** Reading [self.direction] where an array is needed. *)
Definition self_direction (self : loc) : M vec :=
  let! o := get_instance self in
  match direction o with
  | None => raise (TypeError "NoneType")
  | Some d => ret d
  end.

Fixpoint pca_matrix (self : loc) (definitional_pairs : list (string * string))
  : M (list vec) :=
  match definitional_pairs with
  | [] => ret []
  | (word1, word2) :: rest =>
      let! v1 := __getitem__ self word1 in
      let vector1 := normalize v1 in
      let! v2 := __getitem__ self word2 in
      let vector2 := normalize v2 in
      let center := vdivs (vadd vector1 vector2) 2%float in
      let! matrix := pca_matrix self rest in
      ret (vsub vector1 center :: vsub vector2 center :: matrix)
  end.

Definition _identify_subspace_by_pca (self : loc)
    (definitional_pairs : list (string * string)) (n_components : nat)
  : M PCA :=
  let! matrix := pca_matrix self definitional_pairs in
  lift_exn (PCA_fit n_components matrix).

Definition index {A} (l : list A) (i : nat) : M A :=
  match nth_error l i with
  | Some x => ret x
  | None => raise IndexError
  end.

Definition direction_single (self : loc) (definitional : definitional_words)
  : M vec :=
  match definitional with
  | OnePair words =>
      let! word0 := index words 0 in
      let! v0 := __getitem__ self word0 in
      let! word1 := index words 1 in
      let! v1 := __getitem__ self word1 in
      ret (normalize (vsub (normalize v0) (normalize v1)))
  | Pairs _ => raise (Unsupported "single: words expected")
  end.

Definition direction_sum (self : loc) (definitional : definitional_words)
  : M vec :=
  match definitional with
  | Pairs pairs =>
      let groups := match pairs with
                    | [] => []
                    | _ => [map fst pairs; map snd pairs]
                    end in
      let! group1 := index groups 0 in
      let! vectors1 := map_M (__getitem__ self) group1 in
      let group1_sum_vector := vsum vectors1 in
      let! group2 := index groups 1 in
      let! vectors2 := map_M (__getitem__ self) group2 in
      let group2_sum_vector := vsum vectors2 in
      let diff_vector :=
        vsub (normalize group1_sum_vector) (normalize group2_sum_vector) in
      ret (normalize diff_vector)
  | OnePair _ => raise (Unsupported "sum: pairs expected")
  end.

Definition direction_pca (self : loc) (definitional : definitional_words)
  : M vec :=
  match definitional with
  | Pairs pairs =>
      let! pca := _identify_subspace_by_pca self pairs 10 in
      let! ratio := index (explained_variance_ratio_ pca) 0 in
      if flt ratio FIRST_PC_THRESHOLD
      then raise (RuntimeError_first_pc ratio)
      else index (components_ pca) 0
  | OnePair _ => raise (Unsupported "pca: pairs expected")
  end.

Definition _identify_direction (self : loc) (positive_end negative_end : string)
    (definitional : definitional_words) (method : string) : M unit :=
  if negb (in_list method DIRECTION_METHODS)
  then raise (ValueError_method DIRECTION_METHODS method)
  else
  if String.eqb positive_end negative_end
  then raise (ValueError_same_ends positive_end)
  else
  let! direction :=
    (if String.eqb method "single" then direction_single self definitional
     else if String.eqb method "sum" then direction_sum self definitional
     else direction_pca self definitional) in
  let! v_positive := __getitem__ self positive_end in
  let! v_negative := __getitem__ self negative_end in
  let ends_diff_projection :=
    cosine_similarity (vsub v_positive v_negative) direction in
  let direction :=
    if flt ends_diff_projection 0%float then vneg direction else direction in
  let! o := get_instance self in
  set_instance self
    (mkBiasWordsEmbedding (model o) (only_lower o) (_verbose o)
       (Some direction) (Some positive_end) (Some negative_end)).

Definition project_on_direction (self : loc) (word : string) : M npfloat :=
  do! _is_direction_identified self in
  let! vector := __getitem__ self word in
  let! d := self_direction self in
  index (cosine_similarities d [vector]) 0.

Definition _calc_projection_scores (self : loc) (words : list string)
  : M (list (string * npfloat)) :=
  do! _is_direction_identified self in
  let! df := map_M (fun word =>
                      let! projection := project_on_direction self word in
                      ret (word, projection)) words in
  ret (sort_values_descending df).

(** [Series.sum()] of pandas, which skips [NaN] entries. *)
Definition series_sum (l : list npfloat) : npfloat :=
  fold_left (fun acc x => if is_nan x then acc else fadd acc x) l 0%float.

Definition calc_direct_bias (self : loc) (neutral_words : list string)
    (c : option npfloat) : M npfloat :=
  let c := match c with None => 1%float | Some c => c end in
  let! df := _calc_projection_scores self neutral_words in
  let projections := map snd df in
  let direct_bias_terms := map (fun p => np_power (fabs p) c) projections in
  ret (fdiv (series_sum direct_bias_terms)
         (of_count (length neutral_words))).

Definition calc_indirect_bias (self : loc) (word1 word2 : string)
  : M npfloat :=
  do! _is_direction_identified self in
  let! v1 := __getitem__ self word1 in
  let vector1 := normalize v1 in
  let! v2 := __getitem__ self word2 in
  let vector2 := normalize v2 in
  let! d := self_direction self in
  let perpendicular_vector1 := reject_vector vector1 d in
  let perpendicular_vector2 := reject_vector vector2 d in
  let inner_product := vdot vector1 vector2 in
  let perpendicular_similarity :=
    cosine_similarity perpendicular_vector1 perpendicular_vector2 in
  ret (fdiv (fsub inner_product perpendicular_similarity) inner_product).

Definition extended_specific_words (specific_words : list string)
  : gset string :=
  fold_left
    (fun extended word =>
       extended ∪ {[ word ]} ∪ {[ lower word ]} ∪ {[ upper word ]}
                ∪ {[ title word ]})
    specific_words ∅.

Definition _extract_neutral_words (self : loc) (specific_words : list string)
  : M (list string) :=
  let extended := extended_specific_words specific_words in
  let! o := get_instance self in
  let! kv := get_model (model o) in
  ret (List.filter (fun word => negb (bool_decide (word ∈ extended)))
         (vocab kv)).

(** [iter(x)] (or [tqdm(x)], iterated) on an argument that may be [None]. *)
Definition iter {A} (x : option (list A)) : M (list A) :=
  match x with
  | Some l => ret l
  | None => raise (TypeError "'NoneType' object is not iterable")
  end.

Definition init_sims (self : loc) : M unit :=
  let! o := get_instance self in
  let! kv := get_model (model o) in
  set_model (model o) (init_sims_replace kv).

Definition neutralize_word (self : loc) (word : string) : M unit :=
  let! v := __getitem__ self word in
  let! d := self_direction self in
  let neutralized_vector := reject_vector v d in
  let! o := get_instance self in
  update_word_vector (model o) word neutralized_vector.

Definition _neutralize (self : loc) (neutral_words : option (list string))
  : M unit :=
  do! _is_direction_identified self in
  let! neutral_words_iter := iter neutral_words in
  do! for_each (neutralize_word self) neutral_words_iter in
  init_sims self.

(** The scaling factor of line 358:
    [np.sqrt(1 - np.linalg.norm(rejected_center)**2)]. *)
Definition scaling_factor (rejected_center : vec) : npfloat :=
  fsqrt (fsub 1%float (fmul (norm rejected_center) (norm rejected_center))).

Definition equalize_word (self : loc) (projected_center rejected_center : vec)
    (word_vector : string * vec) : M unit :=
  let '(word, vector) := word_vector in
  let! d := self_direction self in
  let projected_vector := project_vector vector d in
  let projected_part := normalize (vsub projected_vector projected_center) in
  let scaling := scaling_factor rejected_center in
  let equalized_vector := vadd rejected_center (vscale scaling projected_part) in
  let! o := get_instance self in
  update_word_vector (model o) word equalized_vector.

(** The body of the loop over the equality sets.  [np.mean] of an empty
    list is a scalar, on which the helpers of [utils.py] are not
    specified: an empty equality set is outside the model. *)
Definition equalize_set (self : loc) (equality_set_words : list string)
  : M unit :=
  let! equality_set_vectors :=
    map_M (fun word => let! v := __getitem__ self word in ret (normalize v))
      equality_set_words in
  match equality_set_vectors with
  | [] => raise (Unsupported "empty equality set")
  | _ =>
      let center := vmean equality_set_vectors in
      let! d := self_direction self in
      let '(projected_center, rejected_center) :=
        project_reject_vector center d in
      for_each (equalize_word self projected_center rejected_center)
        (combine equality_set_words equality_set_vectors)
  end.

Definition _equalize (self : loc) (equality_sets : option (list (list string)))
  : M unit :=
  let! sets := iter equality_sets in
  do! for_each (equalize_set self) sets in
  init_sims self.

Definition debias (self : loc) (method : string)
    (neutral_words : option (list string))
    (equality_sets : option (list (list string))) (inplace : bool)
  : M (option loc) :=
  let! bias_words_embedding :=
    (if inplace then ret self else __deepcopy__ self) in
  if negb (in_list method DEBIAS_METHODS)
  then raise (ValueError_method DEBIAS_METHODS method)
  else
  do! (if in_list method ["hard"; "neutralize"]%string
       then _neutralize bias_words_embedding neutral_words
       else ret tt) in
  do! (if String.eqb method "hard"
       then _equalize bias_words_embedding equality_sets
       else ret tt) in
  if inplace then ret None else ret (Some bias_words_embedding).

(** The loop of lines 479-490: [data] and [non_specific_example_count]
    are threaded through the enumeration of the vocabulary. *)
Fixpoint collect_examples (self : loc) (seed_specific_words : list string)
    (max_non_specific_examples : Z) (words : list string)
    (data : list (vec * bool)) (non_specific_example_count : Z)
  : M (list (vec * bool)) :=
  match words with
  | [] => ret data
  | word :: rest =>
      let is_specific := in_list word seed_specific_words in
      if negb is_specific then
        let non_specific_example_count :=
          (non_specific_example_count + 1)%Z in
        if (non_specific_example_count <=? max_non_specific_examples)%Z then
          let! v := __getitem__ self word in
          collect_examples self seed_specific_words max_non_specific_examples
            rest (data ++ [(v, is_specific)]) non_specific_example_count
        else
          collect_examples self seed_specific_words max_non_specific_examples
            rest data non_specific_example_count
      else
        let! v := __getitem__ self word in
        collect_examples self seed_specific_words max_non_specific_examples
          rest (data ++ [(v, is_specific)]) non_specific_example_count
  end.

(** What [learn_full_specific_words] returns; [X] and [y] only in debug
    mode. *)
Record learned : Type := mkLearned {
  full_specific_words : list string;
  clf : LinearSVC;
  debug_X_y : option (list vec * list Z)
}.

(** Lines 473-500 of [learn_full_specific_words]: the features [X] and the
    labels [y] that the classifier is fitted on. *)
Definition training_set (self : loc) (seed_specific_words : list string)
    (max_non_specific_examples : option Z) : M (list vec * list Z) :=
  let max_non_specific_examples :=
    match max_non_specific_examples with
    | None => MAX_NON_SPECIFIC_EXAMPLES
    | Some n => n
    end in
  let! o := get_instance self in
  let! kv := get_model (model o) in
  let! data := collect_examples self seed_specific_words
                 max_non_specific_examples (vocab kv) [] 0%Z in
  let data := shuffle data in
  match data with
  | [] => raise (ValueError "not enough values to unpack")
  | _ =>
      let X := map (fun d : vec * bool => vdivs (fst d) (norm (fst d)))
                 data in
      let y := map (fun d : vec * bool => if snd d then 1%Z else 0%Z)
                 data in
      ret (X, y)
  end.

Definition learn_full_specific_words (self : loc)
    (seed_specific_words : list string)
    (max_non_specific_examples : option Z) (debug : option bool)
  : M learned :=
  let debug := match debug with None => false | Some b => b end in
  let! '(X, y) := training_set self seed_specific_words
                    max_non_specific_examples in
  let! clf := lift_exn (LinearSVC_fit X y) in
  let! o := get_instance self in
  let! kv := get_model (model o) in
  let! vectors := map_M (fun word =>
                           let! v := __getitem__ self word in
                           ret (word, normalize v)) (vocab kv) in
  let full_specific_words :=
    map (fun wv : string * vec => fst wv)
      (List.filter (fun wv : string * vec => predict clf (snd wv))
         vectors) in
  ret (mkLearned full_specific_words clf
         (if debug then Some (X, y) else None)).

End BiasWordsEmbedding.
(** * Definitions for the statements and their proofs *)

(** The instance and the heap that [copy.deepcopy(self)] produces. *)
Definition deepcopy_instance (o : BiasWordsEmbedding) (h : heap)
  : BiasWordsEmbedding :=
  mkBiasWordsEmbedding (fresh (dom (models h))) false false
    (direction o) (positive_end o) (negative_end o).

Definition deepcopy_heap (o : BiasWordsEmbedding) (kv : KeyedVectors)
    (h : heap) : heap :=
  mkHeap (<[fresh (dom (models h)) := kv]> (models h))
         (<[fresh (dom (instances h)) := deepcopy_instance o h]>
            (instances h)).

(** The heap [h] with the store at [m] replaced by [kv]. *)
Definition with_store (h : heap) (m : loc) (kv : KeyedVectors) : heap :=
  mkHeap (<[m := kv]> (models h)) (instances h).

(** [h'] differs from [h] at most in the store at [m]. *)
Definition touches_only (m : loc) (h h' : heap) : Prop :=
  instances h' = instances h /\
  forall m', m' <> m -> models h' !! m' = models h !! m'.

(** A computation that, run on behalf of the instance [self], writes
    nothing but the store that [self.model] refers to. *)
Definition local_to (self : loc) {A} (c : M A) : Prop :=
  forall h o, instances h !! self = Some o ->
              touches_only (model o) h (snd (c h)).

(** A computation that leaves the heap as it is. *)
Definition read_only {A} (c : M A) : Prop := forall h, snd (c h) = h.

(** The steps of [debias] that follow the choice of the object. *)
Definition debias_steps (bias_words_embedding : loc) (method : string)
    (neutral_words : option (list string))
    (equality_sets : option (list (list string))) (inplace : bool)
  : M (option loc) :=
  if negb (in_list method DEBIAS_METHODS)
  then raise (ValueError_method DEBIAS_METHODS method)
  else
  do! (if in_list method ["hard"; "neutralize"]%string
       then _neutralize bias_words_embedding neutral_words
       else ret tt) in
  do! (if String.eqb method "hard"
       then _equalize bias_words_embedding equality_sets
       else ret tt) in
  if inplace then ret None else ret (Some bias_words_embedding).

(** Following the spec: [w] is a case variant of the specific word [s] when
    it is the word itself or its lower-case, upper-case or title-case
    form. *)
Definition case_variant (lower upper title : string -> string)
    (s w : string) : Prop :=
  w = s \/ w = lower s \/ w = upper s \/ w = title s.

(** The row of a vocabulary word. *)
Definition row (kv : KeyedVectors) (word : string) : vec :=
  default [] (word_vec kv word).

(** The first [max_non_specific_examples] vocabulary words that are not
    seed words, labelled false. *)
Definition capped_others (kv : KeyedVectors)
    (seed_specific_words : list string) (max_non_specific_examples : Z)
  : list (vec * bool) :=
  map (fun w => (row kv w, false))
    (firstn (Z.to_nat max_non_specific_examples)
       (List.filter (fun w => negb (in_list w seed_specific_words))
          (vocab kv))).

(** Following the spec: "every seed-specific word (label=true) plus up to
    [max_non_specific_examples] other vocabulary words (label=false, taken
    in vocabulary enumeration order, capped)". *)
Definition spec_dataset (kv : KeyedVectors) (seed_specific_words : list string)
    (max_non_specific_examples : Z) : list (vec * bool) :=
  map (fun w => (row kv w, true)) seed_specific_words
  ++ capped_others kv seed_specific_words max_non_specific_examples.

(** The same with the seed words of the vocabulary only, in the order of
    the vocabulary. *)
Definition vocabulary_dataset (kv : KeyedVectors)
    (seed_specific_words : list string) (max_non_specific_examples : Z)
  : list (vec * bool) :=
  map (fun w => (row kv w, true))
    (List.filter (fun w => in_list w seed_specific_words) (vocab kv))
  ++ capped_others kv seed_specific_words max_non_specific_examples.

(** The words that the loop of lines 479-490 keeps, from a given value of
    the counter. *)
Fixpoint kept_words (seed_specific_words : list string)
    (max_non_specific_examples : Z) (words : list string) (count : Z)
  : list string :=
  match words with
  | [] => []
  | w :: rest =>
      if in_list w seed_specific_words
      then w :: kept_words seed_specific_words max_non_specific_examples
                  rest count
      else if (count + 1 <=? max_non_specific_examples)%Z
           then w :: kept_words seed_specific_words max_non_specific_examples
                       rest (count + 1)%Z
           else kept_words seed_specific_words max_non_specific_examples
                  rest (count + 1)%Z
  end.

(** What becomes of a training example: the feature row is scaled to unit
    length, the label is cast to an integer. *)
Definition as_training_example (d : vec * bool) : vec * Z :=
  (vdivs (fst d) (norm (fst d)), if snd d then 1%Z else 0%Z).

(** Lines 495-500: the features and the labels of the shuffled examples. *)
Definition features (data : list (vec * bool)) : list vec :=
  map (fun d : vec * bool => vdivs (fst d) (norm (fst d))) data.
Definition labels (data : list (vec * bool)) : list Z :=
  map (fun d : vec * bool => if snd d then 1%Z else 0%Z) data.

(** The radicand of line 358, [1 − ‖rejected_center‖²], as computed. *)
Definition radicand (rejected_center : vec) : npfloat :=
  fsub 1%float (fmul (norm rejected_center) (norm rejected_center)).

(** Following the spec: "scaling = sqrt(max(0, 1 − ‖rejected_centroid‖²))",
    with Python's [max]. *)
Definition py_max (a b : npfloat) : npfloat := if flt a b then b else a.

Definition clamped_scaling_factor (rejected_center : vec) : npfloat :=
  fsqrt (py_max 0%float (radicand rejected_center)).

(** A row divided by its norm, as [init_sims(replace=True)] leaves it. *)
Definition renormalized_row (v : vec) : vec := vdivs v (fsqrt (vdot v v)).

(** The loop of [_neutralize] on the store alone, for a direction [d]:
    the exception that stops it, if any, and the store then. *)
Fixpoint neutralize_rows (d : vec) (words : list string) (kv : KeyedVectors)
  : option exn * KeyedVectors :=
  match words with
  | [] => (None, kv)
  | word :: rest =>
      match word_vec kv word with
      | None => (Some (KeyError word), kv)
      | Some v => neutralize_rows d rest (set_row kv word (reject_vector v d))
      end
  end.

Definition outcome (e : option exn) : exn + unit :=
  match e with
  | None => inr tt
  | Some e => inl e
  end.

(** The vector that the loop body of [_equalize] (lines 355-363) writes
    for a member [vector] of the set. *)
Definition equalized_vector (d projected_center rejected_center vector : vec)
  : vec :=
  vadd rejected_center
    (vscale (scaling_factor rejected_center)
       (normalize (vsub (project_vector vector d) projected_center))).

(** The centre of a set of two rows, as line 349 computes it. *)
Definition pair_center (x1 x2 : vec) : vec :=
  vmean [normalize x1; normalize x2].


(** ** [debias] on the store alone

    What the steps of [debias] do to the store of the instance they run
    on, as functions of the direction and of the store: the exception that
    stops them, if any, and the store then. *)

(** The rows read at line 347-348, normalized; the first missing word
    stops the reading. *)
Fixpoint normalized_rows (kv : KeyedVectors) (words : list string)
  : exn + list vec :=
  match words with
  | [] => inr []
  | word :: rest =>
      match word_vec kv word with
      | None => inl (KeyError word)
      | Some v =>
          match normalized_rows kv rest with
          | inl e => inl e
          | inr vectors => inr (normalize v :: vectors)
          end
      end
  end.

(** The loop of lines 354-365 over the members of one set. *)
Fixpoint equalize_members (d projected_center rejected_center : vec)
    (members : list (string * vec)) (kv : KeyedVectors)
  : option exn * KeyedVectors :=
  match members with
  | [] => (None, kv)
  | (word, vector) :: rest =>
      if contains kv word
      then equalize_members d projected_center rejected_center rest
             (set_row kv word
                (equalized_vector d projected_center rejected_center vector))
      else (Some (KeyError word), kv)
  end.

Definition equalize_set_rows (d : option vec) (words : list string)
    (kv : KeyedVectors) : option exn * KeyedVectors :=
  match normalized_rows kv words with
  | inl e => (Some e, kv)
  | inr [] => (Some (Unsupported "empty equality set"), kv)
  | inr vectors =>
      match d with
      | None => (Some (TypeError "NoneType"), kv)
      | Some d =>
          let '(projected_center, rejected_center) :=
            project_reject_vector (vmean vectors) d in
          equalize_members d projected_center rejected_center
            (combine words vectors) kv
      end
  end.

Fixpoint equalize_rows (d : option vec) (sets : list (list string))
    (kv : KeyedVectors) : option exn * KeyedVectors :=
  match sets with
  | [] => (None, kv)
  | words :: rest =>
      match equalize_set_rows d words kv with
      | (None, kv') => equalize_rows d rest kv'
      | (Some e, kv') => (Some e, kv')
      end
  end.

Definition renormalized (r : option exn * KeyedVectors)
  : option exn * KeyedVectors :=
  match r with
  | (None, kv) => (None, init_sims_replace kv)
  | (Some e, kv) => (Some e, kv)
  end.

Definition equalize_store (d : option vec)
    (equality_sets : option (list (list string))) (kv : KeyedVectors)
  : option exn * KeyedVectors :=
  match equality_sets with
  | None => (Some (TypeError "'NoneType' object is not iterable"), kv)
  | Some sets => renormalized (equalize_rows d sets kv)
  end.

Definition neutralize_store (d : option vec)
    (neutral_words : option (list string)) (kv : KeyedVectors)
  : option exn * KeyedVectors :=
  match d with
  | None => (Some RuntimeError_direction_not_identified, kv)
  | Some d =>
      match neutral_words with
      | None => (Some (TypeError "'NoneType' object is not iterable"), kv)
      | Some words => renormalized (neutralize_rows d words kv)
      end
  end.

Definition debias_store (d : option vec) (method : string)
    (neutral_words : option (list string))
    (equality_sets : option (list (list string))) (kv : KeyedVectors)
  : option exn * KeyedVectors :=
  if negb (in_list method DEBIAS_METHODS)
  then (Some (ValueError_method DEBIAS_METHODS method), kv)
  else
    match (if in_list method ["hard"; "neutralize"]%string
           then neutralize_store d neutral_words kv
           else (None, kv)) with
    | (Some e, kv1) => (Some e, kv1)
    | (None, kv1) =>
        if String.eqb method "hard"
        then equalize_store d equality_sets kv1
        else (None, kv1)
    end.

(** The result of a method call that stops with [e], or returns [a]. *)
Definition result_of {A} (e : option exn) (a : A) : exn + A :=
  match e with
  | None => inr a
  | Some e => inl e
  end.

(** ** The matrix of [_identify_subspace_by_pca] *)

(** The rows appended at lines 97-98 for the pairs, read off the store. *)
Fixpoint pca_rows (kv : KeyedVectors) (pairs : list (string * string))
  : list vec :=
  match pairs with
  | [] => []
  | (word1, word2) :: rest =>
      let vector1 := normalize (row kv word1) in
      let vector2 := normalize (row kv word2) in
      let center := vdivs (vadd vector1 vector2) 2%float in
      vsub vector1 center :: vsub vector2 center :: pca_rows kv rest
  end.

(** The instance [o] with the direction [d] and the ends stored, as lines
    164-166 leave it. *)
Definition with_direction (o : BiasWordsEmbedding) (d : vec)
    (positive negative : string) : BiasWordsEmbedding :=
  mkBiasWordsEmbedding (model o) (only_lower o) (_verbose o)
    (Some d) (Some positive) (Some negative).

(** ** Opposite numbers

    The opposite of a sum is the sum of the opposites, except that a sum
    that is zero has the sign of zero that the rounding rule gives it:
    two numbers are opposite when one is the negation of the other, or
    both are zeros. *)
Definition SFzero (x : spec_float) : Prop :=
  match x with S754_zero _ => True | _ => False end.

Definition SFopposite (x y : spec_float) : Prop :=
  y = SFopp x \/ (SFzero x /\ SFzero y).

Definition opposite (x y : npfloat) : Prop :=
  SFopposite (Prim2SF x) (Prim2SF y).

(** ** A small embedding, for concrete runs *)

Module Example.

(** Python's [str.lower], [str.upper] and [str.title], on ASCII strings. *)
Definition is_upper (c : ascii) : bool :=
  let n := nat_of_ascii c in (65 <=? n)%nat && (n <=? 90)%nat.
Definition is_lower (c : ascii) : bool :=
  let n := nat_of_ascii c in (97 <=? n)%nat && (n <=? 122)%nat.
Definition ascii_lower (c : ascii) : ascii :=
  if is_upper c then ascii_of_nat (nat_of_ascii c + 32) else c.
Definition ascii_upper (c : ascii) : ascii :=
  if is_lower c then ascii_of_nat (nat_of_ascii c - 32) else c.

Fixpoint str_map (f : ascii -> ascii) (s : string) : string :=
  match s with
  | EmptyString => EmptyString
  | String c s' => String (f c) (str_map f s')
  end.

Definition str_lower : string -> string := str_map ascii_lower.
Definition str_upper : string -> string := str_map ascii_upper.

Fixpoint title_from (previous_is_cased : bool) (s : string) : string :=
  match s with
  | EmptyString => EmptyString
  | String c s' =>
      if is_upper c || is_lower c
      then String (if previous_is_cased then ascii_lower c else ascii_upper c)
             (title_from true s')
      else String c (title_from false s')
  end.

Definition str_title : string -> string := title_from false.

(** Stand-ins for the external libraries. *)
Definition no_PCA (n_components : nat) (matrix : list vec) : exn + PCA :=
  inl (ExternalError "PCA").
Definition power_one (x c : npfloat) : npfloat := x.
Definition unsorted (df : list (string * npfloat)) : list (string * npfloat) :=
  df.
Definition reversed (data : list (vec * bool)) : list (vec * bool) :=
  rev data.

(** The doubles nearest to 0.6 and 0.8. *)
Definition three_fifths : npfloat := 0x1.3333333333333p-1%float.
Definition four_fifths : npfloat := 0x1.999999999999ap-1%float.

Definition he : vec := [1; 0]%float.
Definition she : vec := [-1; 0]%float.
Definition him : vec := [1; 0]%float.
Definition boy : vec := [three_fifths; four_fifths].
Definition girl : vec := [fneg three_fifths; four_fifths].
Definition nurse : vec := [four_fifths; three_fifths].

Definition store : KeyedVectors :=
  [("he", he); ("she", she); ("him", him); ("boy", boy);
   ("girl", girl); ("nurse", nurse)]%string.

(** The direction from "she" to "he". *)
Definition gender : vec := [1; 0]%float.

Definition unidentified : BiasWordsEmbedding :=
  mkBiasWordsEmbedding 0%nat false false None None None.

Definition identified : BiasWordsEmbedding :=
  mkBiasWordsEmbedding 0%nat false false (Some gender)
    (Some "he"%string) (Some "she"%string).

(** One store and one instance, before and after the identification of
    the direction. *)
Definition heap0 : heap :=
  mkHeap {[ 0%nat := store ]} {[ 0%nat := unidentified ]}.
Definition heap1 : heap :=
  mkHeap {[ 0%nat := store ]} {[ 0%nat := identified ]}.





(** Two words that are mirror images of each other across the direction
    1, 0, 0 of "he" and "she": their rows are ±2^-30, 1.07, 1.96. *)
Definition mirror1 : vec :=
  [0x1p-30; 0x1.11eb851eb851fp+0; 0x1.f5c28f5c28f5cp+0]%float.
Definition mirror2 : vec :=
  [-0x1p-30; 0x1.11eb851eb851fp+0; 0x1.f5c28f5c28f5cp+0]%float.

Definition store_mirror : KeyedVectors :=
  [("he", [1; 0; 0]%float); ("she", [-1; 0; 0]%float);
   ("left", mirror1); ("right", mirror2)]%string.
Definition heap_mirror : heap :=
  mkHeap {[ 0%nat := store_mirror ]} {[ 0%nat := unidentified ]}.

(** A classifier that records what it is fitted on, and predicts
    nothing. *)
Definition recorder : Type := list vec * list Z.
Definition recording_fit (X : list vec) (y : list Z) : exn + recorder :=
  inr (X, y).
Definition predict_none (c : recorder) (v : vec) : bool := false.

End Example.

(** A fitted PCA for the small embedding, whose first component explains
    a quarter of the variance. *)
Module ExamplePCA.
Definition weak_PCA (n_components : nat) (matrix : list vec) : exn + PCA :=
  inr (mkPCA [0x1p-2; 0x1p-2]%float [[1; 0]; [0; 1]]%float).
End ExamplePCA.


(** * Theorems *)

(** ** Running method calls *)

Lemma bind_inr {A B} (c : M A) (k : A -> M B) h a h' :
  c h = (inr a, h') -> bind c k h = k a h'.
Proof. intros H. unfold bind. now rewrite H. Qed.

Lemma bind_inl {A B} (c : M A) (k : A -> M B) h e h' :
  c h = (inl e, h') -> bind c k h = (inl e, h').
Proof. intros H. unfold bind. now rewrite H. Qed.

Lemma get_instance_some self o h :
  instances h !! self = Some o -> get_instance self h = (inr o, h).
Proof. intros H. unfold get_instance. now rewrite H. Qed.

Lemma get_model_some m kv h :
  models h !! m = Some kv -> get_model m h = (inr kv, h).
Proof. intros H. unfold get_model. now rewrite H. Qed.

Lemma is_direction_identified_none self o h :
  instances h !! self = Some o -> direction o = None ->
  _is_direction_identified self h
  = (inl RuntimeError_direction_not_identified, h).
Proof.
  intros Ho Hd. unfold _is_direction_identified.
  rewrite (bind_inr _ _ _ _ _ (get_instance_some _ _ _ Ho)).
  now rewrite Hd.
Qed.

Lemma is_direction_identified_some self o d h :
  instances h !! self = Some o -> direction o = Some d ->
  _is_direction_identified self h = (inr tt, h).
Proof.
  intros Ho Hd. unfold _is_direction_identified.
  rewrite (bind_inr _ _ _ _ _ (get_instance_some _ _ _ Ho)).
  now rewrite Hd.
Qed.

(** C8. Direction identification called with [positive_end] equal to
    [negative_end] raises a [ValueError] whatever the method and the
    definitional input are: the one about the ends when the method is a
    valid one, the one about the method otherwise.  Nothing is read or
    computed before, and the heap, hence the instance's [direction],
    [positive_end] and [negative_end], is left as it was. *)
Theorem identify_direction_equal_ends_fails :
  forall (PCA_fit : nat -> list vec -> exn + PCA) (self : loc) (word : string)
         (definitional : definitional_words) (method : string) (h : heap),
    _identify_direction PCA_fit self word word definitional method h
    = (inl (if in_list method DIRECTION_METHODS
            then ValueError_same_ends word
            else ValueError_method DIRECTION_METHODS method), h).
Proof.
  intros. unfold _identify_direction.
  destruct (in_list method DIRECTION_METHODS); simpl; [|reflexivity].
  now rewrite String.eqb_refl.
Qed.

(** ** Copies *)

Lemma deepcopy_run self o kv h :
  instances h !! self = Some o ->
  models h !! model o = Some kv ->
  __deepcopy__ self h
  = (inr (fresh (dom (instances h))), deepcopy_heap o kv h).
Proof.
  intros Ho Hm.
  unfold __deepcopy__, __copy__, __init__.
  unfold bind at 1. unfold bind at 1.
  rewrite (get_instance_some _ _ _ Ho).
  unfold bind, new_instance, get_instance, set_instance, get_model,
    new_model, ret; simpl.
  repeat (first [rewrite lookup_insert_eq | rewrite Hm]; simpl).
  unfold deepcopy_heap, deepcopy_instance.
  now rewrite !insert_insert_eq.
Qed.

Lemma fresh_instance_none (h : heap) :
  instances h !! fresh (dom (instances h)) = None.
Proof. apply not_elem_of_dom, is_fresh. Qed.

Lemma fresh_model_none (h : heap) :
  models h !! fresh (dom (models h)) = None.
Proof. apply not_elem_of_dom, is_fresh. Qed.

Lemma deepcopy_heap_instance o kv h :
  instances (deepcopy_heap o kv h) !! fresh (dom (instances h))
  = Some (deepcopy_instance o h).
Proof. unfold deepcopy_heap; simpl. apply lookup_insert_eq. Qed.

Lemma deepcopy_heap_model o kv h :
  models (deepcopy_heap o kv h) !! fresh (dom (models h)) = Some kv.
Proof. unfold deepcopy_heap; simpl. apply lookup_insert_eq. Qed.

(** C7. On an instance whose direction is [None], [project_on_direction],
    [calc_direct_bias], [calc_indirect_bias] and the neutralize step (called
    directly, or through [debias] with the methods [hard] and [neutralize])
    raise the "direction was not identified" error first: the heap is the
    one of the call, so nothing was computed from the direction and no
    vector was written.  With [inplace=False] the error is the same and the
    only change of the heap is the copy made before, whose store holds the
    vectors of the original. *)
Theorem direction_not_identified_fails_fast :
  forall (np_power : npfloat -> npfloat -> npfloat)
         (sort_values_descending :
            list (string * npfloat) -> list (string * npfloat))
         (self : loc) (o : BiasWordsEmbedding) (kv : KeyedVectors) (h : heap),
    instances h !! self = Some o ->
    models h !! model o = Some kv ->
    direction o = None ->
    (forall word,
        project_on_direction self word h
        = (inl RuntimeError_direction_not_identified, h)) /\
    (forall neutral_words c,
        calc_direct_bias np_power sort_values_descending self neutral_words c h
        = (inl RuntimeError_direction_not_identified, h)) /\
    (forall word1 word2,
        calc_indirect_bias self word1 word2 h
        = (inl RuntimeError_direction_not_identified, h)) /\
    (forall neutral_words,
        _neutralize self neutral_words h
        = (inl RuntimeError_direction_not_identified, h)) /\
    (forall method neutral_words equality_sets,
        In method ["hard"; "neutralize"]%string ->
        debias self method neutral_words equality_sets true h
        = (inl RuntimeError_direction_not_identified, h)
        /\ debias self method neutral_words equality_sets false h
           = (inl RuntimeError_direction_not_identified,
              deepcopy_heap o kv h)).
Proof.
  intros np_power sortv self o kv h Ho Hm Hd.
  pose proof (is_direction_identified_none _ _ _ Ho Hd) as Hfail.
  repeat split; intros.
  - unfold project_on_direction. now rewrite (bind_inl _ _ _ _ _ Hfail).
  - unfold calc_direct_bias, _calc_projection_scores.
    unfold bind at 1. unfold bind at 1. now rewrite Hfail.
  - unfold calc_indirect_bias. now rewrite (bind_inl _ _ _ _ _ Hfail).
  - unfold _neutralize. now rewrite (bind_inl _ _ _ _ _ Hfail).
  - unfold debias. unfold bind at 1; simpl.
    assert (Hn : _neutralize self neutral_words h
                 = (inl RuntimeError_direction_not_identified, h)).
    { unfold _neutralize. now rewrite (bind_inl _ _ _ _ _ Hfail). }
    destruct H as [<- | [<- | []]]; simpl;
      now rewrite (bind_inl _ _ _ _ _ Hn).
  - unfold debias. rewrite (bind_inr _ _ _ _ _ (deepcopy_run _ _ _ _ Ho Hm)).
    assert (Hn : _neutralize (fresh (dom (instances h))) neutral_words
                   (deepcopy_heap o kv h)
                 = (inl RuntimeError_direction_not_identified,
                    deepcopy_heap o kv h)).
    { unfold _neutralize.
      rewrite (bind_inl _ _ _ _ _
                 (is_direction_identified_none _ _ _
                    (deepcopy_heap_instance o kv h) Hd)).
      reflexivity. }
    destruct H as [<- | [<- | []]]; simpl;
      now rewrite (bind_inl _ _ _ _ _ Hn).
Qed.

(** ** What a method call may write *)

Lemma touches_only_refl m h : touches_only m h h.
Proof. split; auto. Qed.

Lemma touches_only_trans m h1 h2 h3 :
  touches_only m h1 h2 -> touches_only m h2 h3 -> touches_only m h1 h3.
Proof.
  intros [Hi1 Hm1] [Hi2 Hm2]. split.
  - congruence.
  - intros m' Hne. rewrite Hm2, Hm1; auto.
Qed.

Lemma read_only_local self {A} (c : M A) : read_only c -> local_to self c.
Proof. intros Hc h o _. rewrite Hc. apply touches_only_refl. Qed.

Lemma read_only_ret {A} (a : A) : read_only (ret a).
Proof. now intros h. Qed.

Lemma read_only_raise {A} e : read_only (@raise A e).
Proof. now intros h. Qed.

Lemma read_only_lift_exn {A} (r : exn + A) : read_only (lift_exn r).
Proof. now intros h. Qed.

Lemma read_only_bind {A B} (c : M A) (k : A -> M B) :
  read_only c -> (forall a, read_only (k a)) -> read_only (bind c k).
Proof.
  intros Hc Hk h. unfold bind. specialize (Hc h).
  destruct (c h) as [[e | a] h1]; simpl in *; subst; auto. apply Hk.
Qed.

Lemma read_only_get_instance self : read_only (get_instance self).
Proof. intros h. unfold get_instance. now destruct (instances h !! self). Qed.

Lemma read_only_get_model m : read_only (get_model m).
Proof. intros h. unfold get_model. now destruct (models h !! m). Qed.

Lemma read_only_getitem self key : read_only (__getitem__ self key).
Proof.
  unfold __getitem__.
  apply read_only_bind; [apply read_only_get_instance | intros o].
  apply read_only_bind; [apply read_only_get_model | intros kv].
  destruct (word_vec kv key); [apply read_only_ret | apply read_only_raise].
Qed.

Lemma read_only_self_direction self : read_only (self_direction self).
Proof.
  unfold self_direction.
  apply read_only_bind; [apply read_only_get_instance | intros o].
  destruct (direction o); [apply read_only_ret | apply read_only_raise].
Qed.

Lemma read_only_is_direction_identified self :
  read_only (_is_direction_identified self).
Proof.
  unfold _is_direction_identified.
  apply read_only_bind; [apply read_only_get_instance | intros o].
  destruct (direction o); [apply read_only_ret | apply read_only_raise].
Qed.

Lemma read_only_iter {A} (x : option (list A)) : read_only (iter x).
Proof. destruct x; [apply read_only_ret | apply read_only_raise]. Qed.

Lemma read_only_map_M {A B} (f : A -> M B) (l : list A) :
  (forall a, read_only (f a)) -> read_only (map_M f l).
Proof.
  intros Hf. induction l as [| x l IH]; simpl.
  - apply read_only_ret.
  - apply read_only_bind; [apply Hf | intros y].
    apply read_only_bind; [apply IH | intros ys]. apply read_only_ret.
Qed.

Lemma local_bind self {A B} (c : M A) (k : A -> M B) :
  local_to self c -> (forall a, local_to self (k a)) ->
  local_to self (bind c k).
Proof.
  intros Hc Hk h o Ho. unfold bind. specialize (Hc h o Ho).
  destruct (c h) as [[e | a] h1] eqn:E; simpl in *; auto.
  eapply touches_only_trans; [exact Hc |].
  apply Hk. destruct Hc as [Hi _]. now rewrite Hi.
Qed.

Lemma local_for_each self {A} (body : A -> M unit) (l : list A) :
  (forall a, local_to self (body a)) -> local_to self (for_each body l).
Proof.
  intros Hb. induction l as [| x l IH]; simpl.
  - apply read_only_local, read_only_ret.
  - apply local_bind; auto.
Qed.

(** Writing a row through [self.model] is local to [self]. *)
Lemma local_update_own_store self word v :
  local_to self (bind (get_instance self)
                   (fun o => update_word_vector (model o) word v)).
Proof.
  intros h o Ho. rewrite (bind_inr _ _ _ _ _ (get_instance_some _ _ _ Ho)).
  unfold update_word_vector, bind, get_model.
  destruct (models h !! model o) as [kv |]; simpl;
    [| apply touches_only_refl].
  destruct (contains kv word); simpl; [| apply touches_only_refl].
  split; simpl; auto. intros m' Hne. now rewrite lookup_insert_ne.
Qed.

Lemma local_init_sims self : local_to self (init_sims self).
Proof.
  intros h o Ho. unfold init_sims.
  rewrite (bind_inr _ _ _ _ _ (get_instance_some _ _ _ Ho)).
  unfold bind, get_model.
  destruct (models h !! model o) as [kv |]; simpl;
    [| apply touches_only_refl].
  split; simpl; auto. intros m' Hne. now rewrite lookup_insert_ne.
Qed.

Lemma local_neutralize self neutral_words :
  local_to self (_neutralize self neutral_words).
Proof.
  unfold _neutralize.
  apply local_bind;
    [apply read_only_local, read_only_is_direction_identified | intros _].
  apply local_bind; [apply read_only_local, read_only_iter | intros ws].
  apply local_bind; [| intros _; apply local_init_sims].
  apply local_for_each. intros word. unfold neutralize_word.
  apply local_bind; [apply read_only_local, read_only_getitem | intros v].
  apply local_bind; [apply read_only_local, read_only_self_direction |].
  intros d. apply local_update_own_store.
Qed.

Lemma local_equalize_set self equality_set_words :
  local_to self (equalize_set self equality_set_words).
Proof.
  unfold equalize_set.
  apply local_bind.
  { apply read_only_local, read_only_map_M. intros word.
    apply read_only_bind; [apply read_only_getitem | intros v].
    apply read_only_ret. }
  intros [| v vs]; [apply read_only_local, read_only_raise |].
  apply local_bind; [apply read_only_local, read_only_self_direction |].
  intros d. destruct (project_reject_vector _ d) as [pc rc].
  apply local_for_each. intros [word vector]. unfold equalize_word.
  apply local_bind; [apply read_only_local, read_only_self_direction |].
  intros d'. apply local_update_own_store.
Qed.

Lemma local_equalize self equality_sets :
  local_to self (_equalize self equality_sets).
Proof.
  unfold _equalize.
  apply local_bind; [apply read_only_local, read_only_iter | intros sets].
  apply local_bind; [| intros _; apply local_init_sims].
  apply local_for_each. intros s. apply local_equalize_set.
Qed.

Lemma debias_unfold self method neutral_words equality_sets inplace :
  debias self method neutral_words equality_sets inplace
  = bind (if inplace then ret self else __deepcopy__ self)
      (fun b => debias_steps b method neutral_words equality_sets inplace).
Proof. reflexivity. Qed.

Lemma local_debias_steps b method neutral_words equality_sets inplace :
  local_to b (debias_steps b method neutral_words equality_sets inplace).
Proof.
  unfold debias_steps.
  destruct (negb (in_list method DEBIAS_METHODS));
    [apply read_only_local, read_only_raise |].
  apply local_bind.
  { destruct (in_list method _);
      [apply local_neutralize | apply read_only_local, read_only_ret]. }
  intros _. apply local_bind.
  { destruct (String.eqb method "hard");
      [apply local_equalize | apply read_only_local, read_only_ret]. }
  intros _. destruct inplace; apply read_only_local, read_only_ret.
Qed.


Lemma debias_not_inplace_run self o kv method neutral_words equality_sets h :
  instances h !! self = Some o ->
  models h !! model o = Some kv ->
  debias self method neutral_words equality_sets false h
  = debias_steps (fresh (dom (instances h))) method neutral_words
      equality_sets false (deepcopy_heap o kv h)
    /\ touches_only (fresh (dom (models h))) (deepcopy_heap o kv h)
         (snd (debias self method neutral_words equality_sets false h)).
Proof.
  intros Ho Hm. rewrite debias_unfold.
  rewrite (bind_inr _ _ _ _ _ (deepcopy_run _ _ _ _ Ho Hm)).
  split; [reflexivity |].
  apply (local_debias_steps _ method neutral_words equality_sets false
           (deepcopy_heap o kv h) (deepcopy_instance o h)).
  apply deepcopy_heap_instance.
Qed.

(** C5. [debias] with [inplace=False] leaves the original untouched,
    whatever the method, the neutral words and the equality sets are and
    whether the call returns or raises: the instance [self] keeps its
    attributes (direction and end labels among them), its store keeps every
    vector, and so does every other object and store that existed before the
    call.  All writes go to the store of the copy. *)
Theorem debias_not_inplace_leaves_original :
  forall (self : loc) (o : BiasWordsEmbedding) (kv : KeyedVectors)
         (method : string) (neutral_words : option (list string))
         (equality_sets : option (list (list string))) (h : heap),
    instances h !! self = Some o ->
    models h !! model o = Some kv ->
    let h' := snd (debias self method neutral_words equality_sets false h) in
    instances h' !! self = Some o /\
    models h' !! model o = Some kv /\
    (forall l o0, instances h !! l = Some o0 -> instances h' !! l = Some o0) /\
    (forall m kv0, models h !! m = Some kv0 -> models h' !! m = Some kv0).
Proof.
  intros self o kv method nw es h Ho Hm h'.
  destruct (debias_not_inplace_run self o kv method nw es h Ho Hm)
    as [_ [Hi Hmod]].
  change (instances h' = instances (deepcopy_heap o kv h)) in Hi.
  change (forall m', m' <> fresh (dom (models h)) ->
                     models h' !! m' = models (deepcopy_heap o kv h) !! m')
    in Hmod.
  clearbody h'.
  assert (Hinst : forall l o0, instances h !! l = Some o0 ->
                               instances h' !! l = Some o0).
  { intros l o0 Hl. rewrite Hi. unfold deepcopy_heap; simpl.
    rewrite lookup_insert_ne; [exact Hl |].
    intros <-. rewrite fresh_instance_none in Hl. discriminate. }
  assert (Hmods : forall m kv0, models h !! m = Some kv0 ->
                                models h' !! m = Some kv0).
  { intros m kv0 Hl.
    assert (Hne : m <> fresh (dom (models h))).
    { intros ->. rewrite fresh_model_none in Hl. discriminate. }
    rewrite (Hmod m Hne). unfold deepcopy_heap; simpl.
    rewrite lookup_insert_ne; [exact Hl | congruence]. }
  auto.
Qed.


(** ** Neutral words *)

Lemma elem_of_extended_specific_words lower upper title specific_words w :
  w ∈ extended_specific_words lower upper title specific_words
  <-> exists s, In s specific_words /\ case_variant lower upper title s w.
Proof.
  unfold extended_specific_words.
  assert (G : forall (acc : gset string),
             w ∈ fold_left
                   (fun extended word =>
                      extended ∪ {[ word ]} ∪ {[ lower word ]}
                               ∪ {[ upper word ]} ∪ {[ title word ]})
                   specific_words acc
             <-> w ∈ acc \/
                 exists s, In s specific_words /\
                           case_variant lower upper title s w).
  { induction specific_words as [| x l IH]; intros acc; simpl.
    - split; [auto | intros [H | [s [[] _]]]; auto].
    - rewrite IH. unfold case_variant. split.
      + intros [H | [s [Hs Hc]]].
        * rewrite !elem_of_union, !elem_of_singleton in H.
          destruct H as [[[[H | H] | H] | H] | H]; eauto 10.
        * eauto 10.
      + intros [H | [s [[-> | Hs] Hc]]].
        * left. rewrite !elem_of_union. tauto.
        * left. rewrite !elem_of_union, !elem_of_singleton. tauto.
        * eauto 10. }
  rewrite G. split; [intros [H | H]; [set_solver | auto] | auto].
Qed.

Lemma TypeError_on_None_neutral_words self o d h :
  instances h !! self = Some o -> direction o = Some d ->
  _neutralize self None h
  = (inl (TypeError "'NoneType' object is not iterable"), h).
Proof.
  intros Ho Hd. unfold _neutralize.
  now rewrite (bind_inr _ _ _ _ _ (is_direction_identified_some _ _ _ _ Ho Hd)).
Qed.

Lemma extract_neutral_words_run lower upper title self o kv specific_words h :
  instances h !! self = Some o ->
  models h !! model o = Some kv ->
  exists neutral_words,
    _extract_neutral_words lower upper title self specific_words h
    = (inr neutral_words, h) /\
    forall w, In w neutral_words
              <-> In w (vocab kv) /\
                  forall s, In s specific_words ->
                            ~ case_variant lower upper title s w.
Proof.
  intros Ho Hm. eexists. split.
  - unfold _extract_neutral_words.
    rewrite (bind_inr _ _ _ _ _ (get_instance_some _ _ _ Ho)).
    rewrite (bind_inr _ _ _ _ _ (get_model_some _ _ _ Hm)).
    reflexivity.
  - intros w. rewrite filter_In, negb_true_iff, bool_decide_eq_false.
    rewrite elem_of_extended_specific_words. split.
    + intros [Hin Hn]. split; [exact Hin |]. intros s Hs Hc.
      apply Hn. eauto.
    + intros [Hin Hn]. split; [exact Hin |]. intros [s [Hs Hc]].
      exact (Hn s Hs Hc).
Qed.

Lemma debias_without_neutral_words self o d method equality_sets h :
  instances h !! self = Some o ->
  direction o = Some d ->
  In method ["hard"; "neutralize"]%string ->
  debias self method None equality_sets true h
  = (inl (TypeError "'NoneType' object is not iterable"), h).
Proof.
  intros Ho Hd Hmeth. rewrite debias_unfold.
  unfold bind at 1, ret. unfold debias_steps.
  pose proof (TypeError_on_None_neutral_words _ _ _ _ Ho Hd) as Hn.
  destruct Hmeth as [<- | [<- | []]]; simpl;
    now rewrite (bind_inl _ _ _ _ _ Hn).
Qed.

(** C6 (amended). [_extract_neutral_words] returns the vocabulary words that
    are not a case variant (the word itself, its lower-case, upper-case or
    title-case form) of any word of the given specific words, and reads the
    heap only.  [debias] does not call it: when no list of neutral words is
    given, the neutralize step of the methods [hard] and [neutralize]
    raises a [TypeError] once the direction check has passed, and no vector
    is written. *)
Theorem extract_neutral_words_complement :
  forall (lower upper title : string -> string) (self : loc)
         (o : BiasWordsEmbedding) (kv : KeyedVectors)
         (specific_words : list string) (h : heap),
    instances h !! self = Some o ->
    models h !! model o = Some kv ->
    (exists neutral_words,
        _extract_neutral_words lower upper title self specific_words h
        = (inr neutral_words, h) /\
        forall w, In w neutral_words
                  <-> In w (vocab kv) /\
                      forall s, In s specific_words ->
                                ~ case_variant lower upper title s w) /\
    (forall d method equality_sets,
        direction o = Some d ->
        In method ["hard"; "neutralize"]%string ->
        debias self method None equality_sets true h
        = (inl (TypeError "'NoneType' object is not iterable"), h)).
Proof.
  intros lower upper title self o kv specific h Ho Hm. split.
  - now apply extract_neutral_words_run with (o := o).
  - intros d method es Hd Hmeth.
    now apply debias_without_neutral_words with (o := o) (d := d).
Qed.

(** ** The training set of [learn_full_specific_words] *)

Lemma word_vec_in_vocab kv w :
  In w (vocab kv) -> exists v, word_vec kv w = Some v.
Proof.
  induction kv as [| [x v] kv IH]; simpl; [tauto |].
  intros [-> | H].
  - rewrite String.eqb_refl. eauto.
  - destruct (String.eqb x w); eauto.
Qed.

Lemma getitem_run self o kv w v h :
  instances h !! self = Some o ->
  models h !! model o = Some kv ->
  word_vec kv w = Some v ->
  __getitem__ self w h = (inr v, h).
Proof.
  intros Ho Hm Hw. unfold __getitem__.
  rewrite (bind_inr _ _ _ _ _ (get_instance_some _ _ _ Ho)).
  rewrite (bind_inr _ _ _ _ _ (get_model_some _ _ _ Hm)).
  now rewrite Hw.
Qed.

Lemma getitem_fail self o kv w h :
  instances h !! self = Some o ->
  models h !! model o = Some kv ->
  word_vec kv w = None ->
  __getitem__ self w h = (inl (KeyError w), h).
Proof.
  intros Ho Hm Hw. unfold __getitem__.
  rewrite (bind_inr _ _ _ _ _ (get_instance_some _ _ _ Ho)).
  rewrite (bind_inr _ _ _ _ _ (get_model_some _ _ _ Hm)).
  now rewrite Hw.
Qed.

Lemma collect_examples_run self o kv seeds cap h :
  instances h !! self = Some o ->
  models h !! model o = Some kv ->
  forall words data count,
    (forall w, In w words -> In w (vocab kv)) ->
    collect_examples self seeds cap words data count h
    = (inr (data ++ map (fun w => (row kv w, in_list w seeds))
                      (kept_words seeds cap words count)), h).
Proof.
  intros Ho Hm. induction words as [| w rest IH]; intros data count Hin; simpl.
  - now rewrite app_nil_r.
  - destruct (word_vec_in_vocab kv w) as [v Hv]; [apply Hin; now left |].
    assert (Hrow : row kv w = v) by (unfold row; now rewrite Hv).
    assert (Hrest : forall x, In x rest -> In x (vocab kv))
      by (intros x Hx; apply Hin; now right).
    destruct (in_list w seeds) eqn:Es; simpl.
    + rewrite (bind_inr _ _ _ _ _ (getitem_run _ _ _ _ _ _ Ho Hm Hv)).
      rewrite IH by exact Hrest.
      now rewrite <- app_assoc, Hrow, Es.
    + destruct (count + 1 <=? cap)%Z; simpl.
      * rewrite (bind_inr _ _ _ _ _ (getitem_run _ _ _ _ _ _ Ho Hm Hv)).
        rewrite IH by exact Hrest.
        now rewrite <- app_assoc, Hrow, Es.
      * now rewrite IH by exact Hrest.
Qed.

Lemma kept_words_permutation seeds cap words :
  forall count,
    Permutation (kept_words seeds cap words count)
      (List.filter (fun w => in_list w seeds) words
       ++ firstn (Z.to_nat (cap - count))
            (List.filter (fun w => negb (in_list w seeds)) words)).
Proof.
  induction words as [| w rest IH]; intros count; simpl.
  - now rewrite firstn_nil.
  - destruct (in_list w seeds) eqn:Es; simpl.
    + apply perm_skip, IH.
    + destruct (count + 1 <=? cap)%Z eqn:Ec.
      * apply Z.leb_le in Ec.
        replace (Z.to_nat (cap - count))
          with (S (Z.to_nat (cap - (count + 1)))) by lia.
        simpl. apply Permutation_cons_app, IH.
      * apply Z.leb_gt in Ec.
        rewrite (IH (count + 1)%Z).
        replace (Z.to_nat (cap - (count + 1))) with 0%nat by lia.
        replace (Z.to_nat (cap - count)) with 0%nat by lia.
        reflexivity.
Qed.

Lemma kept_words_non_specific seeds cap words :
  forall count,
    List.filter (fun w => negb (in_list w seeds))
      (kept_words seeds cap words count)
    = firstn (Z.to_nat (cap - count))
        (List.filter (fun w => negb (in_list w seeds)) words).
Proof.
  induction words as [| w rest IH]; intros count; simpl.
  - now rewrite firstn_nil.
  - destruct (in_list w seeds) eqn:Es; simpl.
    + rewrite Es. simpl. apply IH.
    + destruct (count + 1 <=? cap)%Z eqn:Ec.
      * apply Z.leb_le in Ec. simpl. rewrite Es. simpl.
        replace (Z.to_nat (cap - count))
          with (S (Z.to_nat (cap - (count + 1)))) by lia.
        simpl. now rewrite IH.
      * apply Z.leb_gt in Ec. rewrite IH.
        replace (Z.to_nat (cap - (count + 1))) with 0%nat by lia.
        replace (Z.to_nat (cap - count)) with 0%nat by lia.
        reflexivity.
Qed.

Lemma kept_words_specific seeds cap words :
  forall count,
    List.filter (fun w => in_list w seeds) (kept_words seeds cap words count)
    = List.filter (fun w => in_list w seeds) words.
Proof.
  induction words as [| w rest IH]; intros count; simpl; [reflexivity |].
  destruct (in_list w seeds) eqn:Es; simpl.
  - rewrite Es. now rewrite IH.
  - destruct (count + 1 <=? cap)%Z; simpl; rewrite ?Es; apply IH.
Qed.

Lemma firstn_In {A} (x : A) (n : nat) (l : list A) :
  In x (firstn n l) -> In x l.
Proof.
  revert l. induction n as [| n IH]; intros [| a l]; simpl; try tauto.
  intros [-> | H]; auto.
Qed.

Lemma labelled_rows_of_filter kv seeds (b : bool) (l : list string) :
  (forall w, In w l -> in_list w seeds = b) ->
  map (fun w => (row kv w, in_list w seeds)) l
  = map (fun w => (row kv w, b)) l.
Proof.
  intros H. apply map_ext_in. intros w Hw. now rewrite (H w Hw).
Qed.

Lemma labelled_rows_vocabulary_dataset kv seeds cap :
  map (fun w => (row kv w, in_list w seeds))
    (List.filter (fun w => in_list w seeds) (vocab kv)
     ++ firstn (Z.to_nat cap)
          (List.filter (fun w => negb (in_list w seeds)) (vocab kv)))
  = vocabulary_dataset kv seeds cap.
Proof.
  unfold vocabulary_dataset, capped_others. rewrite map_app. f_equal.
  - apply labelled_rows_of_filter. intros w Hw.
    now apply filter_In in Hw.
  - apply labelled_rows_of_filter. intros w Hw.
    apply firstn_In, filter_In in Hw. now apply negb_true_iff.
Qed.

Lemma filter_labelled_rows kv seeds (l : list string) :
  List.filter (fun d : vec * bool => negb (snd d))
    (map (fun w => (row kv w, in_list w seeds)) l)
  = map (fun w => (row kv w, in_list w seeds))
      (List.filter (fun w => negb (in_list w seeds)) l).
Proof.
  induction l as [| w l IH]; simpl; [reflexivity |].
  destruct (in_list w seeds) eqn:E; simpl; rewrite ?E, IH; reflexivity.
Qed.

Lemma filter_true_labelled_rows kv seeds (l : list string) :
  List.filter (fun d : vec * bool => snd d)
    (map (fun w => (row kv w, in_list w seeds)) l)
  = map (fun w => (row kv w, in_list w seeds))
      (List.filter (fun w => in_list w seeds) l).
Proof.
  induction l as [| w l IH]; simpl; [reflexivity |].
  destruct (in_list w seeds) eqn:E; simpl; rewrite ?E, IH; reflexivity.
Qed.

Lemma combine_map_map {A B C} (f : A -> B) (g : A -> C) (l : list A) :
  combine (map f l) (map g l) = map (fun a => (f a, g a)) l.
Proof. induction l; simpl; congruence. Qed.


(** * Arithmetic of binary64 numbers

    Facts about signs, which hold of the rounded operations: they follow
    from the specification of the operations on [spec_float]. *)

Section SpecFloat.

Variables prec emax : Z.

Lemma binary_round_aux_opp s m e l :
  binary_round_aux prec emax (negb s) m e l
  = SFopp (binary_round_aux prec emax s m e l).
Proof.
  unfold binary_round_aux.
  destruct (shr_fexp prec emax m e l) as [mrs' e'].
  destruct (shr_fexp prec emax _ e' loc_Exact) as [mrs'' e''].
  destruct (shr_m mrs'') as [| p | p]; [reflexivity | | reflexivity].
  now destruct (Z.leb e'' (emax - prec)).
Qed.

Lemma binary_round_opp s m e :
  binary_round prec emax (negb s) m e = SFopp (binary_round prec emax s m e).
Proof.
  unfold binary_round. destruct (shl_align m e _) as [mz ez].
  apply binary_round_aux_opp.
Qed.

Lemma xorb_negb_r a b : xorb a (negb b) = negb (xorb a b).
Proof. now destruct a, b. Qed.

Lemma SFmul_opp_r a b :
  SFmul prec emax a (SFopp b) = SFopp (SFmul prec emax a b).
Proof.
  destruct a as [sa | sa | | sa ma ea], b as [sb | sb | | sb mb eb]; simpl;
    rewrite ?xorb_negb_r; try reflexivity.
  apply binary_round_aux_opp.
Qed.

Lemma SFmul_opp_opp a :
  SFmul prec emax (SFopp a) (SFopp a) = SFmul prec emax a a.
Proof.
  destruct a as [sa | sa | | sa ma ea]; simpl; try reflexivity;
    now destruct sa.
Qed.

Lemma SFmul_comm a b : SFmul prec emax a b = SFmul prec emax b a.
Proof.
  destruct a as [sa | sa | | sa ma ea], b as [sb | sb | | sb mb eb]; simpl;
    rewrite ?(xorb_comm sa sb); try reflexivity.
  now rewrite Pos.mul_comm, Z.add_comm.
Qed.

Lemma SFdiv_opp_l a b :
  SFdiv prec emax (SFopp a) b = SFopp (SFdiv prec emax a b).
Proof.
  destruct a as [sa | sa | | sa ma ea], b as [sb | sb | | sb mb eb]; simpl;
    try reflexivity; try (now destruct sa, sb).
  destruct (SFdiv_core_binary prec emax (Z.pos ma) ea (Z.pos mb) eb)
    as [[mz ez] lz].
  replace (xorb (negb sa) sb) with (negb (xorb sa sb)) by now destruct sa, sb.
  apply binary_round_aux_opp.
Qed.

(** A quotient of zero is a zero, or not a number. *)
Lemma SFdiv_zero_l a b :
  SFzero a ->
  SFzero (SFdiv prec emax a b) \/ SFdiv prec emax a b = S754_nan.
Proof.
  destruct a as [sa | | |]; try contradiction. intros _.
  destruct b as [sb | sb | | sb mb eb]; simpl; auto.
Qed.

Lemma binary_normalize_opp m e :
  SFopposite (binary_normalize prec emax m e false)
             (binary_normalize prec emax (- m) e false).
Proof.
  destruct m as [| p | p]; simpl.
  - right. now split.
  - left. apply (binary_round_opp false).
  - left. change false with (negb true) at 1.
    now rewrite binary_round_opp.
Qed.

Lemma cond_Zopp_negb s m : cond_Zopp (negb s) m = (- cond_Zopp s m)%Z.
Proof. destruct s; simpl; lia. Qed.

Lemma SFadd_opp a b :
  SFopposite (SFadd prec emax a b) (SFadd prec emax (SFopp a) (SFopp b)).
Proof.
  destruct a as [sa | sa | | sa ma ea], b as [sb | sb | | sb mb eb]; simpl;
    try (left; reflexivity);
    try (destruct sa, sb; simpl; (left; reflexivity) || (right; now split)).
  rewrite !cond_Zopp_negb, <- Z.opp_add_distr.
  apply binary_normalize_opp.
Qed.

Lemma SFadd_zero_l z a :
  SFzero z -> ~ SFzero a -> SFadd prec emax z a = a.
Proof.
  destruct z as [sz | | |]; try contradiction. intros _ Ha.
  destruct a as [sa | sa | | sa ma ea]; simpl; try reflexivity.
  now contradiction Ha.
Qed.

Lemma SFadd_zero_zero z a :
  SFzero z -> SFzero a -> SFzero (SFadd prec emax z a).
Proof.
  destruct z as [sz | | |], a as [sa | | |]; try contradiction. intros _ _.
  simpl. now destruct sz, sa.
Qed.

Lemma SFzero_opp a : SFzero a -> SFzero (SFopp a).
Proof. now destruct a. Qed.

Lemma SFzero_dec a : SFzero a \/ ~ SFzero a.
Proof. destruct a; simpl; auto. Qed.

(** The sum of two opposite numbers with a number and its negation. *)
Lemma SFadd_opposite a a' p :
  SFopposite a a' ->
  SFopposite (SFadd prec emax a p) (SFadd prec emax a' (SFopp p)).
Proof.
  intros [-> | [Ha Ha']]; [apply SFadd_opp |].
  destruct (SFzero_dec p) as [Hp | Hp].
  - right. split; apply SFadd_zero_zero; auto using SFzero_opp.
  - left. rewrite !SFadd_zero_l; auto.
    intros H. apply Hp. now destruct p.
Qed.

End SpecFloat.

Lemma Prim2SF_zero : Prim2SF 0 = S754_zero false.
Proof. reflexivity. Qed.

Lemma fmul_fneg_r x y : fmul x (fneg y) = fneg (fmul x y).
Proof.
  apply Prim2SF_inj. unfold fmul, fneg.
  rewrite opp_spec, !mul_spec, opp_spec. apply SFmul_opp_r.
Qed.

Lemma fmul_fneg_fneg x : fmul (fneg x) (fneg x) = fmul x x.
Proof.
  apply Prim2SF_inj. unfold fmul, fneg.
  rewrite !mul_spec, opp_spec. apply SFmul_opp_opp.
Qed.

Lemma fmul_comm x y : fmul x y = fmul y x.
Proof. apply Prim2SF_inj. unfold fmul. rewrite !mul_spec. apply SFmul_comm. Qed.

Lemma fdiv_fneg_l x y : fdiv (fneg x) y = fneg (fdiv x y).
Proof.
  apply Prim2SF_inj. unfold fdiv, fneg.
  rewrite opp_spec, !div_spec, opp_spec. apply SFdiv_opp_l.
Qed.

Lemma opposite_zero : opposite 0%float 0%float.
Proof. right. now split. Qed.

Lemma fadd_opposite a a' p :
  opposite a a' -> opposite (fadd a p) (fadd a' (fneg p)).
Proof.
  unfold opposite, fadd, fneg. rewrite !add_spec, opp_spec.
  apply SFadd_opposite.
Qed.

(** The inner product with the negated array is the opposite number. *)
Lemma vdot_from_vneg_r a :
  forall b acc acc',
    opposite acc acc' ->
    opposite (vdot_from acc a b) (vdot_from acc' a (vneg b)).
Proof.
  induction a as [| x a IH]; intros [| y b] acc acc' H; simpl; auto.
  apply IH. rewrite fmul_fneg_r. now apply fadd_opposite.
Qed.

Lemma vdot_vneg_r a b : opposite (vdot a b) (vdot a (vneg b)).
Proof. apply vdot_from_vneg_r, opposite_zero. Qed.

Lemma vdot_from_vneg_vneg a :
  forall acc, vdot_from acc (vneg a) (vneg a) = vdot_from acc a a.
Proof.
  induction a as [| x a IH]; intros acc; simpl; [reflexivity |].
  now rewrite fmul_fneg_fneg, IH.
Qed.

Lemma norm_vneg a : norm (vneg a) = norm a.
Proof. unfold norm, vdot. now rewrite vdot_from_vneg_vneg. Qed.

(** A number that is less than zero has an opposite that is not. *)
Lemma flt_zero_fneg x : flt x 0%float = true -> flt (fneg x) 0%float = false.
Proof.
  unfold flt, fneg. rewrite !FloatAxioms.ltb_spec, opp_spec, Prim2SF_zero. unfold SFltb.
  destruct (Prim2SF x) as [s | s | | s m e]; simpl; try discriminate;
    now destruct s.
Qed.

Lemma fdiv_opposite n n' d :
  opposite n n' ->
  flt (fdiv n d) 0%float = true -> flt (fdiv n' d) 0%float = false.
Proof.
  intros [H | [Hz _]].
  - assert (E : n' = fneg n).
    { apply Prim2SF_inj. unfold fneg. now rewrite opp_spec. }
    subst n'. rewrite fdiv_fneg_l. apply flt_zero_fneg.
  - intros Hlt. exfalso. revert Hlt.
    unfold flt, fdiv. rewrite FloatAxioms.ltb_spec, div_spec, Prim2SF_zero.
    unfold SF64div.
    destruct (SFdiv_zero_l FloatOps.prec FloatOps.emax _ (Prim2SF d) Hz)
      as [H | ->]; [| discriminate].
    now destruct (SFdiv _ _ _ _).
Qed.

(** Of a number that is not less than zero, [>= 0] fails only when it is
    not a number. *)
Lemma fge_zero_of_not_flt c :
  flt c 0%float = false -> fge c 0%float = negb (is_nan c).
Proof.
  unfold flt, fge, fle, is_nan, PrimFloat.is_nan.
  rewrite FloatAxioms.ltb_spec, FloatAxioms.leb_spec, FloatAxioms.eqb_spec, Prim2SF_zero.
  unfold SFltb, SFleb, SFeqb.
  destruct (Prim2SF c) as [s | s | | s m e]; simpl.
  - reflexivity.
  - now destruct s.
  - reflexivity.
  - destruct s; [discriminate |]. intros _.
    now rewrite Z.compare_refl, Pos.compare_refl.
Qed.

Lemma cosine_similarity_vneg a d :
  flt (cosine_similarity a d) 0%float = true ->
  flt (cosine_similarity a (vneg d)) 0%float = false.
Proof.
  unfold cosine_similarity. rewrite norm_vneg.
  apply fdiv_opposite, vdot_vneg_r.
Qed.

(** The sign calibration of [_identify_direction], on any two arrays. *)
Lemma sign_calibration a d :
  let c := cosine_similarity a
             (if flt (cosine_similarity a d) 0%float then vneg d else d) in
  flt c 0%float = false /\ fge c 0%float = negb (is_nan c).
Proof.
  intros c.
  assert (H : flt c 0%float = false).
  { unfold c. destruct (flt (cosine_similarity a d) 0%float) eqn:E;
      [now apply cosine_similarity_vneg | exact E]. }
  split; [exact H | now apply fge_zero_of_not_flt].
Qed.

(** ** Commutativity of the inner product *)

Lemma vdot_from_comm a :
  forall b acc, vdot_from acc a b = vdot_from acc b a.
Proof.
  induction a as [| x a IH]; intros [| y b] acc; simpl; try reflexivity.
  now rewrite fmul_comm, IH.
Qed.

Lemma vdot_comm a b : vdot a b = vdot b a.
Proof. apply vdot_from_comm. Qed.

Lemma cosine_similarity_comm a b :
  cosine_similarity a b = cosine_similarity b a.
Proof.
  unfold cosine_similarity. now rewrite vdot_comm, (fmul_comm (norm a)).
Qed.

(** ** Square roots and the clamp *)

Lemma fsqrt_negative x : flt x 0%float = true -> fsqrt x = NaN.
Proof.
  unfold flt, fsqrt, NaN. rewrite FloatAxioms.ltb_spec, Prim2SF_zero. intros H.
  apply Prim2SF_inj. rewrite sqrt_spec. unfold SF64sqrt, SFltb in H.
  destruct (Prim2SF x) as [s | s | | s m e]; simpl in *; try discriminate;
    destruct s; try discriminate; reflexivity.
Qed.

Lemma fsqrt_nan x : is_nan x = true -> fsqrt x = NaN.
Proof.
  unfold is_nan, PrimFloat.is_nan, fsqrt, NaN. rewrite FloatAxioms.eqb_spec. intros H.
  apply Prim2SF_inj. rewrite sqrt_spec. unfold SF64sqrt, SFeqb in H.
  destruct (Prim2SF x) as [s | s | | s m e]; simpl in *;
    try reflexivity; try discriminate.
  - destruct s; simpl in H; discriminate.
  - rewrite Z.compare_refl, Pos.compare_refl in H.
    destruct s; simpl in H; discriminate.
Qed.



Lemma flt_nan_l x y : is_nan x = true -> flt x y = false.
Proof.
  unfold is_nan, PrimFloat.is_nan, flt.
  rewrite FloatAxioms.eqb_spec, FloatAxioms.ltb_spec.
  unfold SFeqb, SFltb.
  destruct (Prim2SF x) as [s | s | | s m e]; simpl;
    try discriminate.
  - destruct s; simpl; discriminate.
  - reflexivity.
  - rewrite Z.compare_refl, Pos.compare_refl. destruct s; simpl; discriminate.
Qed.

(** ** Comparisons *)

Lemma SFcompare_antisym a b :
  SFcompare b a = option_map CompOpp (SFcompare a b).
Proof.
  destruct a as [s | s | | s m e], b as [s' | s' | | s' m' e']; simpl;
    try reflexivity;
    try (destruct s; reflexivity); try (destruct s'; reflexivity);
    try (destruct s, s'; reflexivity).
  change (Pos.compare_cont Eq m m') with (m ?= m')%positive.
  change (Pos.compare_cont Eq m' m) with (m' ?= m)%positive.
  rewrite (Z.compare_antisym e e'), (Pos.compare_antisym m m').
  destruct s, s'; try reflexivity;
    destruct (e ?= e')%Z; simpl; try reflexivity;
    now destruct (m ?= m')%positive.
Qed.

(** [x >= y] excludes [x < y]. *)
Lemma fge_not_flt x y : fge x y = true -> flt x y = false.
Proof.
  unfold fge, fle, flt. rewrite FloatAxioms.leb_spec, FloatAxioms.ltb_spec.
  unfold SFleb, SFltb. rewrite (SFcompare_antisym (Prim2SF y) (Prim2SF x)).
  now destruct (SFcompare (Prim2SF y) (Prim2SF x)) as [[| |] |].
Qed.

(** ** Direction identification *)

Lemma bind_inr_inv {A B} (c : M A) (k : A -> M B) h b h' :
  bind c k h = (inr b, h') ->
  exists a h1, c h = (inr a, h1) /\ k a h1 = (inr b, h').
Proof.
  unfold bind. destruct (c h) as [[e | a] h1]; [discriminate | eauto].
Qed.

Lemma read_only_run {A} (c : M A) h r h' :
  read_only c -> c h = (r, h') -> h' = h.
Proof. intros Hc E. specialize (Hc h). now rewrite E in Hc. Qed.

Lemma getitem_inv self key h v h' :
  __getitem__ self key h = (inr v, h') ->
  h' = h /\
  exists o kv, instances h !! self = Some o /\
               models h !! model o = Some kv /\ word_vec kv key = Some v.
Proof.
  intros E. split; [exact (read_only_run _ _ _ _ (read_only_getitem _ _) E) |].
  unfold __getitem__, bind, get_instance, get_model in E.
  destruct (instances h !! self) as [o |] eqn:Eo; [| discriminate].
  destruct (models h !! model o) as [kv |] eqn:Em; [| discriminate].
  destruct (word_vec kv key) as [v' |] eqn:Ev; [| discriminate].
  unfold ret in E. injection E as -> _. exists o, kv. auto.
Qed.

Lemma read_only_index {A} (l : list A) i : read_only (index l i).
Proof.
  unfold index. destruct (nth_error l i);
    [apply read_only_ret | apply read_only_raise].
Qed.

Lemma read_only_pca_matrix self pairs : read_only (pca_matrix self pairs).
Proof.
  induction pairs as [| [w1 w2] rest IH]; simpl; [apply read_only_ret |].
  apply read_only_bind; [apply read_only_getitem | intros v1].
  apply read_only_bind; [apply read_only_getitem | intros v2].
  apply read_only_bind; [apply IH | intros m]. apply read_only_ret.
Qed.

Lemma read_only_direction PCA_fit self definitional method :
  read_only
    (if String.eqb method "single" then direction_single self definitional
     else if String.eqb method "sum" then direction_sum self definitional
          else direction_pca PCA_fit self definitional).
Proof.
  destruct (String.eqb method "single"); [| destruct (String.eqb method "sum")].
  - unfold direction_single. destruct definitional; [| apply read_only_raise].
    apply read_only_bind; [apply read_only_index | intros w0].
    apply read_only_bind; [apply read_only_getitem | intros v0].
    apply read_only_bind; [apply read_only_index | intros w1].
    apply read_only_bind; [apply read_only_getitem | intros v1].
    apply read_only_ret.
  - unfold direction_sum. destruct definitional; [apply read_only_raise |].
    apply read_only_bind; [apply read_only_index | intros g1].
    apply read_only_bind;
      [apply read_only_map_M; intros; apply read_only_getitem | intros vs1].
    apply read_only_bind; [apply read_only_index | intros g2].
    apply read_only_bind;
      [apply read_only_map_M; intros; apply read_only_getitem | intros vs2].
    apply read_only_ret.
  - unfold direction_pca. destruct definitional; [apply read_only_raise |].
    apply read_only_bind.
    { unfold _identify_subspace_by_pca.
      apply read_only_bind; [apply read_only_pca_matrix | intros m].
      apply read_only_lift_exn. }
    intros pca. apply read_only_bind; [apply read_only_index | intros ratio].
    destruct (flt ratio FIRST_PC_THRESHOLD);
      [apply read_only_raise | apply read_only_index].
Qed.

(** C3 (amended). After a direction identification that returns, with any
    of the methods, the cosine of [vector(positive_end) −
    vector(negative_end)] with the stored direction is never negative: it
    is [≥ 0] unless it is [NaN] (which no comparison holds of). *)
Theorem identify_direction_sign_calibrated :
  forall (PCA_fit : nat -> list vec -> exn + PCA) (self : loc)
         (positive negative : string)
         (definitional : definitional_words) (method : string)
         (h h' : heap),
    _identify_direction PCA_fit self positive negative definitional
      method h = (inr tt, h') ->
    exists o' d v_positive v_negative,
      instances h' !! self = Some o' /\
      direction o' = Some d /\
      positive_end o' = Some positive /\
      negative_end o' = Some negative /\
      __getitem__ self positive h' = (inr v_positive, h') /\
      __getitem__ self negative h' = (inr v_negative, h') /\
      flt (cosine_similarity (vsub v_positive v_negative) d) 0%float = false /\
      fge (cosine_similarity (vsub v_positive v_negative) d) 0%float
      = negb (is_nan (cosine_similarity (vsub v_positive v_negative) d)).
Proof.
  intros PCA_fit self pos neg definitional method h h' E.
  unfold _identify_direction in E.
  destruct (negb (in_list method DIRECTION_METHODS)); [discriminate |].
  destruct (String.eqb pos neg); [discriminate |].
  apply bind_inr_inv in E. destruct E as (d0 & h1 & Ed & E).
  apply (read_only_run _ _ _ _ (read_only_direction _ _ _ _)) in Ed.
  subst h1.
  apply bind_inr_inv in E. destruct E as (vp & h1 & Ep & E).
  apply getitem_inv in Ep. destruct Ep as (-> & o & kv & Ho & Hm & Hp).
  apply bind_inr_inv in E. destruct E as (vn & h1 & En & E).
  apply getitem_inv in En. destruct En as (-> & o2 & kv2 & Ho2 & Hm2 & Hn).
  rewrite Ho in Ho2. injection Ho2 as <-.
  rewrite Hm in Hm2. injection Hm2 as <-.
  rewrite (bind_inr _ _ _ _ _ (get_instance_some _ _ _ Ho)) in E.
  unfold set_instance in E. injection E as <-.
  eexists _, _, vp, vn.
  split; [simpl; apply lookup_insert_eq |].
  split; [reflexivity |]. split; [reflexivity |]. split; [reflexivity |].
  split; [| split].
  - eapply getitem_run; simpl; [apply lookup_insert_eq | exact Hm | exact Hp].
  - eapply getitem_run; simpl; [apply lookup_insert_eq | exact Hm | exact Hn].
  - apply sign_calibration.
Qed.

(** ** Stores *)

Lemma with_store_same h m kv :
  models h !! m = Some kv -> with_store h m kv = h.
Proof.
  intros H. unfold with_store. rewrite (insert_id _ _ _ H). now destruct h.
Qed.

Lemma with_store_twice h m kv kv' :
  with_store (with_store h m kv) m kv' = with_store h m kv'.
Proof. unfold with_store; simpl. now rewrite insert_insert_eq. Qed.

Lemma with_store_model h m kv : models (with_store h m kv) !! m = Some kv.
Proof. unfold with_store; simpl. apply lookup_insert_eq. Qed.

Lemma word_vec_set_row_eq kv w v x :
  word_vec kv w = Some x -> word_vec (set_row kv w v) w = Some v.
Proof.
  induction kv as [| [y u] kv IH]; simpl; [discriminate |].
  destruct (String.eqb y w) eqn:E; simpl; rewrite E; auto.
Qed.

Lemma word_vec_set_row_ne kv w v w' :
  w <> w' -> word_vec (set_row kv w v) w' = word_vec kv w'.
Proof.
  intros Hne. induction kv as [| [y u] kv IH]; simpl; [reflexivity |].
  destruct (String.eqb y w) eqn:E; simpl.
  - apply String.eqb_eq in E. subst y.
    now rewrite (proj2 (String.eqb_neq w w') Hne).
  - destruct (String.eqb y w'); auto.
Qed.

Lemma vocab_set_row kv w v : vocab (set_row kv w v) = vocab kv.
Proof.
  unfold vocab. induction kv as [| [y u] kv IH]; simpl; [reflexivity |].
  destruct (String.eqb y w); simpl; [reflexivity | now f_equal].
Qed.

Lemma word_vec_some_iff_vocab kv w :
  In w (vocab kv) <-> exists v, word_vec kv w = Some v.
Proof.
  split; [apply word_vec_in_vocab |].
  induction kv as [| [y u] kv IH]; simpl; intros [v H]; [discriminate |].
  destruct (String.eqb y w) eqn:E.
  - left. now apply String.eqb_eq.
  - right. eauto.
Qed.

Lemma word_vec_init_sims_replace kv w :
  word_vec (init_sims_replace kv) w
  = option_map (fun v => vdivs v (fsqrt (vdot v v))) (word_vec kv w).
Proof.
  induction kv as [| [y u] kv IH]; simpl; [reflexivity |].
  destruct (String.eqb y w); simpl; auto.
Qed.

Lemma update_word_vector_run h m kv w v x :
  word_vec kv w = Some x ->
  update_word_vector m w v (with_store h m kv)
  = (inr tt, with_store h m (set_row kv w v)).
Proof.
  intros Hw. unfold update_word_vector.
  rewrite (bind_inr _ _ _ _ _
             (get_model_some _ _ _ (with_store_model h m kv))).
  unfold contains. rewrite Hw. unfold set_model.
  f_equal. apply with_store_twice.
Qed.

Lemma self_direction_run self o d h :
  instances h !! self = Some o -> direction o = Some d ->
  self_direction self h = (inr d, h).
Proof.
  intros Ho Hd. unfold self_direction.
  rewrite (bind_inr _ _ _ _ _ (get_instance_some _ _ _ Ho)).
  now rewrite Hd.
Qed.

Lemma init_sims_run self o h kv :
  instances h !! self = Some o ->
  init_sims self (with_store h (model o) kv)
  = (inr tt, with_store h (model o) (init_sims_replace kv)).
Proof.
  intros Ho. unfold init_sims.
  rewrite (bind_inr _ _ _ _ _
             (get_instance_some self o (with_store h (model o) kv) Ho)).
  rewrite (bind_inr _ _ _ _ _
             (get_model_some _ _ _ (with_store_model h (model o) kv))).
  unfold set_model. f_equal. apply with_store_twice.
Qed.

(** ** The neutralize step *)

Lemma neutralize_loop_run self o d h :
  instances h !! self = Some o -> direction o = Some d ->
  forall words kv,
    for_each (neutralize_word self) words (with_store h (model o) kv)
    = (outcome (fst (neutralize_rows d words kv)),
       with_store h (model o) (snd (neutralize_rows d words kv))).
Proof.
  intros Ho Hd. induction words as [| w rest IH]; intros kv; simpl;
    [reflexivity |].
  assert (Ho' : instances (with_store h (model o) kv) !! self = Some o)
    by exact Ho.
  pose proof (with_store_model h (model o) kv) as Hm'.
  unfold bind at 1. unfold neutralize_word at 1.
  destruct (word_vec kv w) as [v |] eqn:Ew.
  - rewrite (bind_inr _ _ _ _ _ (getitem_run _ _ _ _ _ _ Ho' Hm' Ew)).
    rewrite (bind_inr _ _ _ _ _ (self_direction_run _ _ _ _ Ho' Hd)).
    rewrite (bind_inr _ _ _ _ _ (get_instance_some _ _ _ Ho')).
    rewrite (update_word_vector_run _ _ _ _ _ _ Ew).
    apply IH.
  - rewrite (bind_inl _ _ _ _ _ (getitem_fail _ _ _ _ _ Ho' Hm' Ew)).
    reflexivity.
Qed.

Lemma neutralize_run self o d kv h words :
  instances h !! self = Some o -> direction o = Some d ->
  models h !! model o = Some kv ->
  fst (neutralize_rows d words kv) = None ->
  _neutralize self (Some words) h
  = (inr tt,
     with_store h (model o)
       (init_sims_replace (snd (neutralize_rows d words kv)))).
Proof.
  intros Ho Hd Hm Hok. unfold _neutralize.
  rewrite (bind_inr _ _ _ _ _ (is_direction_identified_some _ _ _ _ Ho Hd)).
  unfold iter. unfold bind at 1, ret at 1.
  unfold bind at 1.
  rewrite <- (with_store_same h (model o) kv Hm) at 1.
  rewrite (neutralize_loop_run self o d h Ho Hd), Hok. simpl.
  now apply init_sims_run.
Qed.



(** ** The equalize step on a set of two words *)


Lemma equalize_word_run self o d h kv pc rc word vector x :
  instances h !! self = Some o -> direction o = Some d ->
  word_vec kv word = Some x ->
  equalize_word self pc rc (word, vector) (with_store h (model o) kv)
  = (inr tt,
     with_store h (model o)
       (set_row kv word (equalized_vector d pc rc vector))).
Proof.
  intros Ho Hd Hw. unfold equalize_word.
  assert (Ho' : instances (with_store h (model o) kv) !! self = Some o)
    by exact Ho.
  rewrite (bind_inr _ _ _ _ _ (self_direction_run _ _ _ _ Ho' Hd)).
  rewrite (bind_inr _ _ _ _ _ (get_instance_some _ _ _ Ho')).
  now rewrite (update_word_vector_run _ _ _ _ _ _ Hw).
Qed.

Lemma map_M_run {A B} (f : A -> M B) (g : A -> B) (l : list A) h :
  (forall a, In a l -> f a h = (inr (g a), h)) ->
  map_M f l h = (inr (map g l), h).
Proof.
  induction l as [| x l IH]; intros Hf; simpl; [reflexivity |].
  rewrite (bind_inr _ _ _ _ _ (Hf x (or_introl eq_refl))).
  rewrite (bind_inr _ _ _ _ _ (IH (fun a Ha => Hf a (or_intror Ha)))).
  reflexivity.
Qed.



(** ** Runs of [debias] and of the identification *)

Lemma bind_ret_l {A B} (a : A) (k : A -> M B) h : bind (ret a) k h = k a h.
Proof. reflexivity. Qed.

Lemma neutralize_rows_ok d :
  forall words kv,
    (forall x, In x words -> In x (vocab kv)) ->
    fst (neutralize_rows d words kv) = None.
Proof.
  induction words as [| x rest IH]; intros kv Hin; simpl; [reflexivity |].
  destruct (word_vec_in_vocab kv x) as [v Hv]; [apply Hin; now left |].
  rewrite Hv. apply IH. intros y Hy. rewrite vocab_set_row.
  apply Hin. now right.
Qed.

Lemma debias_steps_neutralize b o d kv words equality_sets inplace h :
  instances h !! b = Some o -> direction o = Some d ->
  models h !! model o = Some kv ->
  (forall x, In x words -> In x (vocab kv)) ->
  fst (debias_steps b "neutralize" (Some words) equality_sets inplace h)
  = inr (if inplace then None else Some b).
Proof.
  intros Ho Hd Hm Hin. unfold debias_steps.
  change (negb (in_list "neutralize" DEBIAS_METHODS)) with false.
  change (in_list "neutralize" ["hard"; "neutralize"]%string) with true.
  change (String.eqb "neutralize" "hard") with false.
  cbv iota.
  rewrite (bind_inr _ _ _ _ _
             (neutralize_run b o d kv h words Ho Hd Hm
                (neutralize_rows_ok d words kv Hin))).
  rewrite bind_ret_l. now destruct inplace.
Qed.

Lemma debias_neutralize_returns self o d kv words equality_sets inplace h :
  instances h !! self = Some o -> direction o = Some d ->
  models h !! model o = Some kv ->
  (forall x, In x words -> In x (vocab kv)) ->
  fst (debias self "neutralize" (Some words) equality_sets inplace h)
  = inr (if inplace then None else Some (fresh (dom (instances h)))).
Proof.
  intros Ho Hd Hm Hin. destruct inplace.
  - rewrite debias_unfold, bind_ret_l.
    now apply debias_steps_neutralize with (o := o) (d := d) (kv := kv).
  - destruct (debias_not_inplace_run self o kv "neutralize" (Some words)
                equality_sets h Ho Hm) as [-> _].
    apply debias_steps_neutralize
      with (o := deepcopy_instance o h) (d := d) (kv := kv); auto.
    + apply deepcopy_heap_instance.
    + apply deepcopy_heap_model.
Qed.

Lemma identify_single_run PCA_fit self o kv h positive negative w0 w1
      v0 v1 v_positive v_negative :
  instances h !! self = Some o ->
  models h !! model o = Some kv ->
  word_vec kv w0 = Some v0 -> word_vec kv w1 = Some v1 ->
  word_vec kv positive = Some v_positive ->
  word_vec kv negative = Some v_negative ->
  String.eqb positive negative = false ->
  let d := normalize (vsub (normalize v0) (normalize v1)) in
  _identify_direction PCA_fit self positive negative (OnePair [w0; w1])
    "single" h
  = (inr tt,
     mkHeap (models h)
       (<[self := mkBiasWordsEmbedding (model o) (only_lower o) (_verbose o)
                    (Some (if flt (cosine_similarity
                                     (vsub v_positive v_negative) d) 0%float
                           then vneg d else d))
                    (Some positive) (Some negative)]> (instances h))).
Proof.
  intros Ho Hm H0 H1 Hp Hn Hne d. unfold _identify_direction.
  change (negb (in_list "single" DIRECTION_METHODS)) with false.
  rewrite Hne. change (String.eqb "single" "single") with true. cbv iota.
  assert (Hdir : direction_single self (OnePair [w0; w1]) h = (inr d, h)).
  { unfold direction_single, index. cbn [nth_error].
    rewrite bind_ret_l.
    rewrite (bind_inr _ _ _ _ _ (getitem_run _ _ _ _ _ _ Ho Hm H0)).
    rewrite bind_ret_l.
    now rewrite (bind_inr _ _ _ _ _ (getitem_run _ _ _ _ _ _ Ho Hm H1)). }
  rewrite (bind_inr _ _ _ _ _ Hdir).
  rewrite (bind_inr _ _ _ _ _ (getitem_run _ _ _ _ _ _ Ho Hm Hp)).
  rewrite (bind_inr _ _ _ _ _ (getitem_run _ _ _ _ _ _ Ho Hm Hn)).
  rewrite (bind_inr _ _ _ _ _ (get_instance_some _ _ _ Ho)).
  reflexivity.
Qed.


(** * Further properties of the class *)

(** ** [debias] as a function of the direction and the store *)

Lemma update_word_vector_missing h m kv w v :
  contains kv w = false ->
  update_word_vector m w v (with_store h m kv)
  = (inl (KeyError w), with_store h m kv).
Proof.
  intros Hw. unfold update_word_vector.
  rewrite (bind_inr _ _ _ _ _
             (get_model_some _ _ _ (with_store_model h m kv))).
  now rewrite Hw.
Qed.

Lemma contains_word_vec kv w :
  contains kv w = true -> exists v, word_vec kv w = Some v.
Proof.
  unfold contains. destruct (word_vec kv w); [eauto | discriminate].
Qed.

Lemma normalized_rows_run self o h kv :
  instances h !! self = Some o -> models h !! model o = Some kv ->
  forall words,
    map_M (fun word => bind (__getitem__ self word)
                         (fun v => ret (normalize v))) words h
    = (normalized_rows kv words, h).
Proof.
  intros Ho Hm. induction words as [| w rest IH]; simpl; [reflexivity |].
  destruct (word_vec kv w) as [v |] eqn:Ew.
  - unfold bind at 1.
    rewrite (bind_inr _ _ _ _ _ (getitem_run _ _ _ _ _ _ Ho Hm Ew)).
    unfold ret at 1. unfold bind at 1. rewrite IH.
    now destruct (normalized_rows kv rest).
  - unfold bind at 1.
    now rewrite (bind_inl _ _ _ _ _ (getitem_fail _ _ _ _ _ Ho Hm Ew)).
Qed.

Lemma equalize_members_run self o d h pc rc :
  instances h !! self = Some o -> direction o = Some d ->
  forall members kv,
    for_each (equalize_word self pc rc) members (with_store h (model o) kv)
    = (outcome (fst (equalize_members d pc rc members kv)),
       with_store h (model o) (snd (equalize_members d pc rc members kv))).
Proof.
  intros Ho Hd. induction members as [| [w vector] rest IH]; intros kv;
    simpl; [reflexivity |].
  assert (Ho' : instances (with_store h (model o) kv) !! self = Some o)
    by exact Ho.
  destruct (contains kv w) eqn:Ew.
  - destruct (contains_word_vec kv w Ew) as [x Hx].
    rewrite (bind_inr _ _ _ _ _
               (equalize_word_run self o d h kv pc rc w vector x Ho Hd Hx)).
    apply IH.
  - unfold bind at 1. unfold equalize_word at 1.
    rewrite (bind_inr _ _ _ _ _ (self_direction_run _ _ _ _ Ho' Hd)).
    rewrite (bind_inr _ _ _ _ _ (get_instance_some _ _ _ Ho')).
    now rewrite (update_word_vector_missing _ _ _ _ _ Ew).
Qed.

Lemma self_direction_none self o h :
  instances h !! self = Some o -> direction o = None ->
  self_direction self h = (inl (TypeError "NoneType"), h).
Proof.
  intros Ho Hd. unfold self_direction.
  rewrite (bind_inr _ _ _ _ _ (get_instance_some _ _ _ Ho)).
  now rewrite Hd.
Qed.

Lemma equalize_set_run self o h words kv :
  instances h !! self = Some o ->
  equalize_set self words (with_store h (model o) kv)
  = (outcome (fst (equalize_set_rows (direction o) words kv)),
     with_store h (model o)
       (snd (equalize_set_rows (direction o) words kv))).
Proof.
  intros Ho. unfold equalize_set, equalize_set_rows.
  assert (Ho' : instances (with_store h (model o) kv) !! self = Some o)
    by exact Ho.
  pose proof (with_store_model h (model o) kv) as Hm'.
  unfold bind at 1. rewrite (normalized_rows_run self o _ kv Ho' Hm' words).
  destruct (normalized_rows kv words) as [e | [| v vs]]; try reflexivity.
  destruct (direction o) as [d |] eqn:Hd.
  - rewrite (bind_inr _ _ _ _ _ (self_direction_run _ _ _ _ Ho' Hd)).
    destruct (project_reject_vector (vmean (v :: vs)) d) as [pc rc].
    now apply equalize_members_run.
  - now rewrite (bind_inl _ _ _ _ _ (self_direction_none _ _ _ Ho' Hd)).
Qed.

Lemma equalize_loop_run self o h :
  instances h !! self = Some o ->
  forall sets kv,
    for_each (equalize_set self) sets (with_store h (model o) kv)
    = (outcome (fst (equalize_rows (direction o) sets kv)),
       with_store h (model o) (snd (equalize_rows (direction o) sets kv))).
Proof.
  intros Ho. induction sets as [| s rest IH]; intros kv; simpl;
    [reflexivity |].
  unfold bind at 1. rewrite (equalize_set_run self o h s kv Ho).
  destruct (equalize_set_rows (direction o) s kv) as [[e |] kv1]; simpl;
    [reflexivity | apply IH].
Qed.

Lemma renormalized_run self o h (r : option exn * KeyedVectors) :
  instances h !! self = Some o ->
  bind (fun h0 => (outcome (fst r), with_store h (model o) (snd r)))
       (fun _ => init_sims self) h
  = (outcome (fst (renormalized r)),
     with_store h (model o) (snd (renormalized r))).
Proof.
  intros Ho. unfold bind. destruct r as [[e |] kv1]; simpl; [reflexivity |].
  now apply init_sims_run.
Qed.

Lemma equalize_store_run self o h equality_sets kv :
  instances h !! self = Some o ->
  _equalize self equality_sets (with_store h (model o) kv)
  = (outcome (fst (equalize_store (direction o) equality_sets kv)),
     with_store h (model o)
       (snd (equalize_store (direction o) equality_sets kv))).
Proof.
  intros Ho. unfold _equalize, equalize_store.
  destruct equality_sets as [sets |]; [| reflexivity].
  unfold iter. rewrite bind_ret_l.
  rewrite <- (renormalized_run self o h
                (equalize_rows (direction o) sets kv) Ho).
  unfold bind. rewrite (equalize_loop_run self o h Ho sets kv).
  reflexivity.
Qed.

Lemma neutralize_store_run self o h neutral_words kv :
  instances h !! self = Some o ->
  _neutralize self neutral_words (with_store h (model o) kv)
  = (outcome (fst (neutralize_store (direction o) neutral_words kv)),
     with_store h (model o)
       (snd (neutralize_store (direction o) neutral_words kv))).
Proof.
  intros Ho. unfold _neutralize, neutralize_store.
  assert (Ho' : instances (with_store h (model o) kv) !! self = Some o)
    by exact Ho.
  destruct (direction o) as [d |] eqn:Hd.
  - rewrite (bind_inr _ _ _ _ _
               (is_direction_identified_some _ _ _ _ Ho' Hd)).
    destruct neutral_words as [words |]; [| reflexivity].
    unfold iter. rewrite bind_ret_l.
    rewrite <- (renormalized_run self o h (neutralize_rows d words kv) Ho).
    unfold bind. rewrite (neutralize_loop_run self o d h Ho Hd words kv).
    reflexivity.
  - now rewrite (bind_inl _ _ _ _ _
                   (is_direction_identified_none _ _ _ Ho' Hd)).
Qed.

Lemma debias_steps_run b o h method neutral_words equality_sets inplace kv :
  instances h !! b = Some o ->
  debias_steps b method neutral_words equality_sets inplace
    (with_store h (model o) kv)
  = (result_of
       (fst (debias_store (direction o) method neutral_words equality_sets
               kv))
       (if inplace then None else Some b),
     with_store h (model o)
       (snd (debias_store (direction o) method neutral_words equality_sets
               kv))).
Proof.
  intros Ho. unfold debias_steps, debias_store.
  destruct (negb (in_list method DEBIAS_METHODS)); [reflexivity |].
  unfold bind at 1.
  destruct (in_list method ["hard"; "neutralize"]%string).
  - rewrite (neutralize_store_run b o h neutral_words kv Ho).
    destruct (neutralize_store (direction o) neutral_words kv)
      as [[e |] kv1]; simpl; [reflexivity |].
    destruct (String.eqb method "hard").
    + unfold bind at 1.
      rewrite (equalize_store_run b o h equality_sets kv1 Ho).
      destruct (equalize_store (direction o) equality_sets kv1)
        as [[e |] kv2]; simpl; [reflexivity | now destruct inplace].
    + rewrite bind_ret_l. now destruct inplace.
  - unfold ret at 1.
    destruct (String.eqb method "hard").
    + unfold bind at 1.
      rewrite (equalize_store_run b o h equality_sets kv Ho).
      destruct (equalize_store (direction o) equality_sets kv)
        as [[e |] kv2]; simpl; [reflexivity | now destruct inplace].
    + rewrite bind_ret_l. now destruct inplace.
Qed.

Lemma vocab_init_sims_replace kv : vocab (init_sims_replace kv) = vocab kv.
Proof.
  unfold vocab, init_sims_replace. rewrite map_map.
  apply map_ext. now intros [w v].
Qed.

Lemma vocab_neutralize_rows d words :
  forall kv, vocab (snd (neutralize_rows d words kv)) = vocab kv.
Proof.
  induction words as [| w rest IH]; intros kv; simpl; [reflexivity |].
  destruct (word_vec kv w) as [v |]; [| reflexivity].
  now rewrite IH, vocab_set_row.
Qed.

Lemma vocab_equalize_members d pc rc members :
  forall kv, vocab (snd (equalize_members d pc rc members kv)) = vocab kv.
Proof.
  induction members as [| [w v] rest IH]; intros kv; simpl; [reflexivity |].
  destruct (contains kv w); [| reflexivity].
  now rewrite IH, vocab_set_row.
Qed.

Lemma vocab_equalize_set_rows d words kv :
  vocab (snd (equalize_set_rows d words kv)) = vocab kv.
Proof.
  unfold equalize_set_rows.
  destruct (normalized_rows kv words) as [e | [| v vs]]; try reflexivity.
  destruct d as [d |]; [| reflexivity].
  destruct (project_reject_vector (vmean (v :: vs)) d) as [pc rc].
  apply vocab_equalize_members.
Qed.

Lemma vocab_equalize_rows d sets :
  forall kv, vocab (snd (equalize_rows d sets kv)) = vocab kv.
Proof.
  induction sets as [| s rest IH]; intros kv; simpl; [reflexivity |].
  pose proof (vocab_equalize_set_rows d s kv) as Hs.
  destruct (equalize_set_rows d s kv) as [[e |] kv1]; simpl in *;
    [exact Hs | now rewrite IH].
Qed.

Lemma vocab_renormalized r : vocab (snd (renormalized r)) = vocab (snd r).
Proof.
  destruct r as [[e |] kv]; simpl; [reflexivity |].
  apply vocab_init_sims_replace.
Qed.

Lemma vocab_debias_store d method neutral_words equality_sets kv :
  vocab (snd (debias_store d method neutral_words equality_sets kv))
  = vocab kv.
Proof.
  unfold debias_store.
  destruct (negb (in_list method DEBIAS_METHODS)); [reflexivity |].
  assert (Hn : vocab (snd (neutralize_store d neutral_words kv)) = vocab kv).
  { unfold neutralize_store. destruct d as [d |]; [| reflexivity].
    destruct neutral_words as [words |]; [| reflexivity].
    now rewrite vocab_renormalized, vocab_neutralize_rows. }
  assert (He : forall kv1,
             vocab (snd (equalize_store d equality_sets kv1)) = vocab kv1).
  { intros kv1. unfold equalize_store.
    destruct equality_sets as [sets |]; [| reflexivity].
    now rewrite vocab_renormalized, vocab_equalize_rows. }
  destruct (in_list method ["hard"; "neutralize"]%string).
  - destruct (neutralize_store d neutral_words kv) as [[e |] kv1];
      simpl in *; [exact Hn |].
    destruct (String.eqb method "hard"); [| exact Hn].
    now rewrite He.
  - destruct (String.eqb method "hard"); [apply He | reflexivity].
Qed.

(** X1. [debias] does the same to the copy as to the original: for every
    method, neutral words and equality sets, the call with [inplace=False]
    stops with the same exception, or returns, as the call with
    [inplace=True], and leaves in the store of the copy the vectors that the
    other leaves in the store of [self].  The words of the store and their
    order are those of before. *)
Theorem debias_copy_same_store :
  forall (self : loc) (o : BiasWordsEmbedding) (kv : KeyedVectors)
         (method : string) (neutral_words : option (list string))
         (equality_sets : option (list (list string))) (h : heap),
    instances h !! self = Some o ->
    models h !! model o = Some kv ->
    exists (e : option exn) (kv' : KeyedVectors),
      debias self method neutral_words equality_sets true h
      = (result_of e None, with_store h (model o) kv') /\
      debias self method neutral_words equality_sets false h
      = (result_of e (Some (fresh (dom (instances h)))),
         with_store (deepcopy_heap o kv h) (fresh (dom (models h))) kv') /\
      vocab kv' = vocab kv.
Proof.
  intros self o kv method nw es h Ho Hm.
  exists (fst (debias_store (direction o) method nw es kv)),
         (snd (debias_store (direction o) method nw es kv)).
  split; [| split].
  - rewrite debias_unfold, bind_ret_l.
    rewrite <- (with_store_same h (model o) kv Hm) at 1.
    apply (debias_steps_run self o h method nw es true kv Ho).
  - destruct (debias_not_inplace_run self o kv method nw es h Ho Hm)
      as [-> _].
    rewrite <- (with_store_same (deepcopy_heap o kv h)
                  (fresh (dom (models h))) kv
                  (deepcopy_heap_model o kv h)) at 1.
    apply (debias_steps_run (fresh (dom (instances h)))
             (deepcopy_instance o h) (deepcopy_heap o kv h) method nw es
             false kv (deepcopy_heap_instance o kv h)).
  - apply vocab_debias_store.
Qed.

(** X2. A method outside [DEBIAS_METHODS] is rejected with a [ValueError]
    whatever the other arguments are.  With [inplace=True] the heap is left
    as it is; with [inplace=False] the deep copy is made before the method
    is checked, so the call leaves a copy behind (holding the vectors of the
    original). *)
Theorem debias_invalid_method :
  forall (self : loc) (o : BiasWordsEmbedding) (kv : KeyedVectors)
         (method : string) (neutral_words : option (list string))
         (equality_sets : option (list (list string))) (h : heap),
    instances h !! self = Some o ->
    models h !! model o = Some kv ->
    ~ In method DEBIAS_METHODS ->
    debias self method neutral_words equality_sets true h
    = (inl (ValueError_method DEBIAS_METHODS method), h) /\
    debias self method neutral_words equality_sets false h
    = (inl (ValueError_method DEBIAS_METHODS method), deepcopy_heap o kv h).
Proof.
  intros self o kv method nw es h Ho Hm Hnot.
  assert (Hb : in_list method DEBIAS_METHODS = false).
  { destruct (in_list method DEBIAS_METHODS) eqn:E; [| reflexivity].
    exfalso. apply Hnot. unfold in_list in E.
    apply existsb_exists in E. destruct E as [x [Hx Ex]].
    apply String.eqb_eq in Ex. now subst x. }
  split.
  - rewrite debias_unfold, bind_ret_l. unfold debias_steps.
    now rewrite Hb.
  - destruct (debias_not_inplace_run self o kv method nw es h Ho Hm)
      as [-> _].
    unfold debias_steps. now rewrite Hb.
Qed.

(** X3. The method [soft] is accepted and does nothing: with
    [inplace=True] the call returns [None] and leaves the heap as it is,
    whatever the direction, the neutral words and the equality sets are
    (they are not read, and the store is not renormalized); with
    [inplace=False] it returns a deep copy holding the vectors of the
    original. *)
Theorem debias_soft_does_nothing :
  forall (self : loc) (o : BiasWordsEmbedding) (kv : KeyedVectors)
         (neutral_words : option (list string))
         (equality_sets : option (list (list string))) (h : heap),
    instances h !! self = Some o ->
    models h !! model o = Some kv ->
    debias self "soft" neutral_words equality_sets true h = (inr None, h) /\
    debias self "soft" neutral_words equality_sets false h
    = (inr (Some (fresh (dom (instances h)))), deepcopy_heap o kv h).
Proof.
  intros self o kv nw es h Ho Hm. split.
  - reflexivity.
  - now destruct (debias_not_inplace_run self o kv "soft" nw es h Ho Hm)
      as [-> _].
Qed.

(** ** The neutralize step: errors and the other words *)

Lemma neutralize_rows_app d pre rest :
  forall kv,
    neutralize_rows d (pre ++ rest) kv
    = match neutralize_rows d pre kv with
      | (None, kv1) => neutralize_rows d rest kv1
      | (Some e, kv1) => (Some e, kv1)
      end.
Proof.
  induction pre as [| w pre IH]; intros kv; simpl; [reflexivity |].
  destruct (word_vec kv w) as [v |]; [apply IH | reflexivity].
Qed.

Lemma neutralize_rows_other d x words :
  forall kv,
    ~ In x words ->
    word_vec (snd (neutralize_rows d words kv)) x = word_vec kv x.
Proof.
  induction words as [| w rest IH]; intros kv Hx; simpl; [reflexivity |].
  destruct (word_vec kv w) as [v |]; [| reflexivity].
  rewrite IH by (intros H; apply Hx; now right).
  apply word_vec_set_row_ne. intros ->. apply Hx. now left.
Qed.

Lemma in_list_In x l : in_list x l = true <-> In x l.
Proof.
  unfold in_list. rewrite existsb_exists. split.
  - intros [y [Hy E]]. apply String.eqb_eq in E. now subst y.
  - intros H. exists x. split; [exact H | apply String.eqb_refl].
Qed.

Lemma neutralize_rows_once d words :
  forall kv,
    List.NoDup words ->
    (forall w, In w words -> In w (vocab kv)) ->
    fst (neutralize_rows d words kv) = None /\
    forall x v,
      word_vec kv x = Some v ->
      word_vec (snd (neutralize_rows d words kv)) x
      = Some (if in_list x words then reject_vector v d else v).
Proof.
  induction words as [| w rest IH]; intros kv Hnd Hin; simpl.
  - split; [reflexivity | intros x v Hx; exact Hx].
  - destruct (word_vec_in_vocab kv w) as [u Hu]; [apply Hin; now left |].
    rewrite Hu. inversion Hnd as [| ? ? Hw Hnd']; subst.
    destruct (IH (set_row kv w (reject_vector u d)) Hnd') as [Hok Hrows].
    { intros y Hy. rewrite vocab_set_row. apply Hin. now right. }
    split; [exact Hok |]. intros x v Hx.
    destruct (String.eqb w x) eqn:E.
    + apply String.eqb_eq in E. subst x.
      rewrite Hu in Hx. injection Hx as <-.
      rewrite (Hrows w (reject_vector u d))
        by (eapply word_vec_set_row_eq, Hu).
      assert (Hnot : in_list w rest = false).
      { destruct (in_list w rest) eqn:F; [| reflexivity].
        exfalso. apply Hw. now apply in_list_In. }
      rewrite Hnot. unfold in_list. simpl. now rewrite String.eqb_refl.
    + apply String.eqb_neq in E.
      rewrite (Hrows x v) by now rewrite word_vec_set_row_ne.
      now rewrite (proj2 (String.eqb_neq x w)) by congruence.
Qed.

(** X4. The neutralize step is not atomic.  When a word of the neutral
    list is not in the vocabulary, the step stops at it with a [KeyError]:
    the words before it (taken here without repetition) have had their
    vectors replaced by their rejections, the others keep their vectors,
    and the store is not renormalized. *)
Theorem neutralize_missing_word_partial :
  forall (self : loc) (o : BiasWordsEmbedding) (kv : KeyedVectors)
         (h : heap) (d : vec) (before after : list string) (w : string),
    instances h !! self = Some o ->
    models h !! model o = Some kv ->
    direction o = Some d ->
    List.NoDup before ->
    (forall x, In x before -> In x (vocab kv)) ->
    ~ In w (vocab kv) ->
    exists kv',
      _neutralize self (Some (before ++ w :: after)) h
      = (inl (KeyError w), with_store h (model o) kv') /\
      forall x v,
        word_vec kv x = Some v ->
        word_vec kv' x
        = Some (if in_list x before then reject_vector v d else v).
Proof.
  intros self o kv h d pre post w Ho Hm Hd Hnd Hin Hw.
  destruct (neutralize_rows_once d pre kv Hnd Hin) as [Hok Hrows].
  exists (snd (neutralize_rows d pre kv)). split; [| exact Hrows].
  rewrite <- (with_store_same h (model o) kv Hm) at 1.
  rewrite (neutralize_store_run self o h _ kv Ho), Hd.
  unfold neutralize_store. rewrite neutralize_rows_app.
  destruct (neutralize_rows d pre kv) as [[e |] kv1] eqn:E; simpl in *;
    [discriminate |].
  assert (Hmiss : word_vec kv1 w = None).
  { destruct (word_vec kv1 w) as [u |] eqn:F; [| reflexivity].
    exfalso. apply Hw.
    rewrite <- (vocab_neutralize_rows d pre kv), E.
    apply word_vec_some_iff_vocab. eauto. }
  now rewrite Hmiss.
Qed.

(** X5. Words outside the neutral list are only rescaled.  When the
    neutralize step returns, a word that is not in the list holds its former
    vector divided by its norm (the renormalization of the whole store),
    whatever that vector is. *)
Theorem neutralize_other_words_rescaled :
  forall (self : loc) (o : BiasWordsEmbedding) (kv : KeyedVectors)
         (h : heap) (d v : vec) (neutral_words : list string) (x : string),
    instances h !! self = Some o ->
    models h !! model o = Some kv ->
    direction o = Some d ->
    (forall w, In w neutral_words -> In w (vocab kv)) ->
    ~ In x neutral_words ->
    word_vec kv x = Some v ->
    exists h',
      _neutralize self (Some neutral_words) h = (inr tt, h') /\
      __getitem__ self x h' = (inr (vdivs v (norm v)), h').
Proof.
  intros self o kv h d v words x Ho Hm Hd Hin Hx Hv.
  eexists. split.
  - apply (neutralize_run self o d kv h words Ho Hd Hm).
    now apply neutralize_rows_ok.
  - eapply getitem_run; [exact Ho | apply with_store_model |].
    rewrite word_vec_init_sims_replace.
    rewrite (neutralize_rows_other d x words kv Hx), Hv. reflexivity.
Qed.

(** ** The indirect bias *)

Lemma calc_indirect_bias_run self o kv h d w1 w2 v1 v2 :
  instances h !! self = Some o -> direction o = Some d ->
  models h !! model o = Some kv ->
  word_vec kv w1 = Some v1 -> word_vec kv w2 = Some v2 ->
  calc_indirect_bias self w1 w2 h
  = (inr (fdiv (fsub (vdot (normalize v1) (normalize v2))
                  (cosine_similarity (reject_vector (normalize v1) d)
                     (reject_vector (normalize v2) d)))
            (vdot (normalize v1) (normalize v2))), h).
Proof.
  intros Ho Hd Hm H1 H2. unfold calc_indirect_bias.
  rewrite (bind_inr _ _ _ _ _ (is_direction_identified_some _ _ _ _ Ho Hd)).
  rewrite (bind_inr _ _ _ _ _ (getitem_run _ _ _ _ _ _ Ho Hm H1)).
  rewrite (bind_inr _ _ _ _ _ (getitem_run _ _ _ _ _ _ Ho Hm H2)).
  rewrite (bind_inr _ _ _ _ _ (self_direction_run _ _ _ _ Ho Hd)).
  reflexivity.
Qed.

(** X10. The indirect bias is symmetric: for two words of the vocabulary
    and an identified direction, [calc_indirect_bias(word1, word2)] and
    [calc_indirect_bias(word2, word1)] return the same number (be it [NaN]
    or infinite) and leave the heap as it is. *)
Theorem calc_indirect_bias_symmetric :
  forall (self : loc) (o : BiasWordsEmbedding) (kv : KeyedVectors)
         (h : heap) (d : vec) (word1 word2 : string),
    instances h !! self = Some o ->
    models h !! model o = Some kv ->
    direction o = Some d ->
    In word1 (vocab kv) ->
    In word2 (vocab kv) ->
    calc_indirect_bias self word1 word2 h
    = calc_indirect_bias self word2 word1 h
    /\ snd (calc_indirect_bias self word1 word2 h) = h.
Proof.
  intros self o kv h d w1 w2 Ho Hm Hd Hw1 Hw2.
  destruct (word_vec_in_vocab kv w1 Hw1) as [v1 H1].
  destruct (word_vec_in_vocab kv w2 Hw2) as [v2 H2].
  rewrite (calc_indirect_bias_run self o kv h d w1 w2 v1 v2 Ho Hd Hm H1 H2).
  rewrite (calc_indirect_bias_run self o kv h d w2 w1 v2 v1 Ho Hd Hm H2 H1).
  split; [| reflexivity].
  now rewrite (vdot_comm (normalize v1)), cosine_similarity_comm.
Qed.


(** ** Neutral words, filtering and copies *)

(** X13. Neutralizing the extracted neutral words always goes through and
    spares the specific words.  For an identified direction and any list of
    specific words, the neutralize step on the result of
    [_extract_neutral_words] returns (no word of it is missing from the
    store), and each specific word of the vocabulary ends with its former
    vector divided by its norm: rescaled, not neutralized. *)
Theorem neutralize_extracted_neutral_words :
  forall (lower upper title : string -> string) (self : loc)
         (o : BiasWordsEmbedding) (kv : KeyedVectors) (d : vec)
         (specific_words : list string) (h : heap),
    instances h !! self = Some o ->
    models h !! model o = Some kv ->
    direction o = Some d ->
    exists neutral_words h',
      _extract_neutral_words lower upper title self specific_words h
      = (inr neutral_words, h) /\
      _neutralize self (Some neutral_words) h = (inr tt, h') /\
      forall s v,
        In s specific_words -> word_vec kv s = Some v ->
        __getitem__ self s h' = (inr (vdivs v (norm v)), h').
Proof.
  intros lower upper title self o kv d specific h Ho Hm Hd.
  destruct (extract_neutral_words_run lower upper title self o kv specific h
              Ho Hm) as [nw [Hrun Hnw]].
  assert (Hin : forall w, In w nw -> In w (vocab kv))
    by (intros w Hw; now apply Hnw in Hw).
  exists nw. eexists. split; [exact Hrun |]. split.
  - apply (neutralize_run self o d kv h nw Ho Hd Hm).
    now apply neutralize_rows_ok.
  - intros s v Hs Hv.
    eapply getitem_run; [exact Ho | apply with_store_model |].
    rewrite word_vec_init_sims_replace.
    rewrite (neutralize_rows_other d s nw kv), Hv; [reflexivity |].
    intros Hsn. apply Hnw in Hsn. destruct Hsn as [_ Hnot].
    apply (Hnot s Hs). now left.
Qed.

Lemma filter_words_by_model_run self o kv h words :
  instances h !! self = Some o -> models h !! model o = Some kv ->
  _filter_words_by_model self words h
  = (inr (List.filter (contains kv) words), h).
Proof.
  intros Ho Hm. unfold _filter_words_by_model.
  assert (Hc : forall a, In a words ->
            bind (__contains__ self a) (fun present => ret (a, present)) h
            = (inr (a, contains kv a), h)).
  { intros w _.
    assert (E : __contains__ self w h = (inr (contains kv w), h)).
    { unfold __contains__.
      rewrite (bind_inr _ _ _ _ _ (get_instance_some _ _ _ Ho)).
      now rewrite (bind_inr _ _ _ _ _ (get_model_some _ _ _ Hm)). }
    now rewrite (bind_inr _ _ _ _ _ E). }
  rewrite (bind_inr _ _ _ _ _
             (map_M_run _ (fun w => (w, contains kv w)) words h Hc)).
  unfold ret. do 2 f_equal. clear Hc.
  induction words as [| w rest IH]; simpl; [reflexivity |].
  destruct (contains kv w); simpl; now rewrite IH.
Qed.

Lemma contains_iff_vocab kv w : contains kv w = true <-> In w (vocab kv).
Proof.
  rewrite word_vec_some_iff_vocab. unfold contains.
  destruct (word_vec kv w); split; eauto; try discriminate.
  intros [v H]. discriminate.
Qed.

(** X14. [_filter_words_by_model] keeps the words that are in the
    vocabulary, in their order and with their repetitions, and reads the
    heap only; filtering twice is filtering once, and every word it keeps
    can be looked up. *)
Theorem filter_words_by_model_keeps_vocabulary :
  forall (self : loc) (o : BiasWordsEmbedding) (kv : KeyedVectors)
         (h : heap) (words : list string),
    instances h !! self = Some o ->
    models h !! model o = Some kv ->
    exists kept,
      _filter_words_by_model self words h = (inr kept, h) /\
      kept = List.filter (contains kv) words /\
      _filter_words_by_model self kept h = (inr kept, h) /\
      (forall w, In w kept <-> In w words /\ In w (vocab kv)) /\
      (forall w, In w kept -> exists v, __getitem__ self w h = (inr v, h)) /\
      (forall w, count_occ string_dec kept w
                 = if contains kv w then count_occ string_dec words w
                   else 0%nat).
Proof.
  intros self o kv h words Ho Hm.
  exists (List.filter (contains kv) words).
  split; [now apply filter_words_by_model_run with (o := o) |].
  split; [reflexivity |].
  split; [| split; [| split]].
  - rewrite (filter_words_by_model_run self o kv h _ Ho Hm). do 2 f_equal.
    induction words as [| w rest IH]; simpl; [reflexivity |].
    destruct (contains kv w) eqn:E; simpl; [rewrite E |]; now rewrite ?IH.
  - intros w. rewrite filter_In, contains_iff_vocab. reflexivity.
  - intros w Hw. apply filter_In in Hw. destruct Hw as [_ Hc].
    destruct (contains_word_vec kv w Hc) as [v Hv]. exists v.
    now apply getitem_run with (o := o) (kv := kv).
  - intros w. induction words as [| x rest IH]; simpl.
    + now destruct (contains kv w).
    + destruct (contains kv x) eqn:E; simpl.
      * destruct (string_dec x w) as [-> | Hne].
        -- rewrite E in *. now rewrite IH.
        -- exact IH.
      * destruct (string_dec x w) as [-> | Hne]; [| exact IH].
        rewrite E in *. exact IH.
Qed.

Lemma copy_run self o h :
  instances h !! self = Some o ->
  __copy__ self h
  = (inr (fresh (dom (instances h))),
     mkHeap (models h)
       (<[fresh (dom (instances h)) :=
            mkBiasWordsEmbedding (model o) false false (direction o)
              (positive_end o) (negative_end o)]> (instances h))).
Proof.
  intros Ho. unfold __copy__, __init__.
  rewrite (bind_inr _ _ _ _ _ (get_instance_some _ _ _ Ho)).
  unfold bind, new_instance, get_instance, set_instance, ret; simpl.
  rewrite lookup_insert_eq; simpl. now rewrite insert_insert_eq.
Qed.

(** X15. A shallow copy shares the store.  [__copy__] makes a new instance
    with the direction and the ends of the original, with [only_lower] and
    the verbosity reset to [False], and with the very store of the original:
    a [debias] in place on the copy leaves every store of the heap as the
    same [debias] in place on the original does. *)
Theorem copy_shares_store :
  forall (self : loc) (o : BiasWordsEmbedding) (kv : KeyedVectors) (h : heap),
    instances h !! self = Some o ->
    models h !! model o = Some kv ->
    exists b h1 c,
      __copy__ self h = (inr b, h1) /\
      b <> self /\
      instances h1 !! self = Some o /\
      instances h1 !! b = Some c /\
      model c = model o /\
      only_lower c = false /\ _verbose c = false /\
      direction c = direction o /\
      positive_end c = positive_end o /\
      negative_end c = negative_end o /\
      models h1 = models h /\
      forall method neutral_words equality_sets,
        models (snd (debias b method neutral_words equality_sets true h1))
        = models (snd (debias self method neutral_words equality_sets true h))
        /\ fst (debias b method neutral_words equality_sets true h1)
           = fst (debias self method neutral_words equality_sets true h).
Proof.
  intros self o kv h Ho Hm.
  set (b := fresh (dom (instances h))).
  set (c := mkBiasWordsEmbedding (model o) false false (direction o)
              (positive_end o) (negative_end o)).
  set (h1 := mkHeap (models h) (<[b := c]> (instances h))).
  assert (Hb : b <> self).
  { intros E. rewrite <- E in Ho. unfold b in Ho.
    rewrite fresh_instance_none in Ho. discriminate. }
  exists b, h1, c.
  split; [now apply copy_run |].
  split; [exact Hb |].
  split; [unfold h1; simpl; now rewrite lookup_insert_ne |].
  assert (Hc : instances h1 !! b = Some c)
    by (unfold h1; simpl; apply lookup_insert_eq).
  split; [exact Hc |].
  repeat (split; [reflexivity |]).
  intros method nw es.
  rewrite !debias_unfold, !bind_ret_l.
  rewrite <- (with_store_same h (model o) kv Hm) at 1 2.
  assert (Hm1 : models h1 !! model c = Some kv) by exact Hm.
  rewrite <- (with_store_same h1 (model c) kv Hm1) at 1 2.
  rewrite (debias_steps_run b c h1 method nw es true kv Hc).
  rewrite (debias_steps_run self o h method nw es true kv Ho).
  split; reflexivity.
Qed.

(** ** Learning the specific words *)

Lemma kept_words_none seeds cap words :
  forall count,
    (forall w, In w words -> in_list w seeds = false) ->
    (cap <= count)%Z ->
    kept_words seeds cap words count = [].
Proof.
  induction words as [| w rest IH]; intros count Hs Hc; simpl;
    [reflexivity |].
  rewrite (Hs w (or_introl eq_refl)).
  destruct (count + 1 <=? cap)%Z eqn:E; [apply Z.leb_le in E; lia |].
  apply IH; [intros x Hx; apply Hs; now right | lia].
Qed.

Lemma read_only_collect_examples self seeds cap words :
  forall data count,
    read_only (collect_examples self seeds cap words data count).
Proof.
  induction words as [| w rest IH]; intros data count; simpl;
    [apply read_only_ret |].
  destruct (negb (in_list w seeds)).
  - destruct (count + 1 <=? cap)%Z; [| apply IH].
    apply read_only_bind; [apply read_only_getitem | intros v; apply IH].
  - apply read_only_bind; [apply read_only_getitem | intros v; apply IH].
Qed.

Lemma read_only_training_set shuffle self seeds mx :
  read_only (training_set shuffle self seeds mx).
Proof.
  unfold training_set.
  apply read_only_bind; [apply read_only_get_instance | intros o].
  apply read_only_bind; [apply read_only_get_model | intros kv].
  apply read_only_bind; [apply read_only_collect_examples | intros data].
  destruct (shuffle data); [apply read_only_raise | apply read_only_ret].
Qed.

(** X16. With nothing to train on, learning fails when the examples are
    unpacked: if no word of the vocabulary is a seed word and the cap on the
    other examples is zero or negative, [learn_full_specific_words] raises a
    [ValueError] before any classifier is fitted, and leaves the heap as it
    is. *)
Theorem learn_without_examples_raises :
  forall (shuffle : list (vec * bool) -> list (vec * bool))
         (LinearSVC : Type)
         (LinearSVC_fit : list vec -> list Z -> exn + LinearSVC)
         (predict : LinearSVC -> vec -> bool)
         (self : loc) (o : BiasWordsEmbedding) (kv : KeyedVectors)
         (seed_specific_words : list string) (cap : Z)
         (debug : option bool) (h : heap),
    (forall l, Permutation l (shuffle l)) ->
    instances h !! self = Some o ->
    models h !! model o = Some kv ->
    (forall w, In w (vocab kv) -> ~ In w seed_specific_words) ->
    (cap <= 0)%Z ->
    training_set shuffle self seed_specific_words (Some cap) h
    = (inl (ValueError "not enough values to unpack"), h) /\
    learn_full_specific_words shuffle LinearSVC LinearSVC_fit predict self
      seed_specific_words (Some cap) debug h
    = (inl (ValueError "not enough values to unpack"), h).
Proof.
  intros shuffle LinearSVC fit predict self o kv seeds cap debug h Hperm Ho
    Hm Hseeds Hcap.
  assert (Ht : training_set shuffle self seeds (Some cap) h
               = (inl (ValueError "not enough values to unpack"), h)).
  { unfold training_set.
    rewrite (bind_inr _ _ _ _ _ (get_instance_some _ _ _ Ho)).
    rewrite (bind_inr _ _ _ _ _ (get_model_some _ _ _ Hm)).
    rewrite (bind_inr _ _ _ _ _
               (collect_examples_run self o kv seeds cap h Ho Hm (vocab kv)
                  [] 0%Z (fun w H => H))).
    rewrite kept_words_none; [| | exact Hcap].
    - simpl. rewrite (Permutation_nil (Hperm [])). reflexivity.
    - intros w Hw. destruct (in_list w seeds) eqn:E; [| reflexivity].
      apply in_list_In in E. exfalso. exact (Hseeds w Hw E). }
  split; [exact Ht |].
  unfold learn_full_specific_words. now rewrite (bind_inl _ _ _ _ _ Ht).
Qed.

(** X17. What [learn_full_specific_words] returns.  When it returns, the
    heap is as before, the classifier is the one fitted on the training set
    [X], [y], the words returned are the vocabulary words, in the order of
    the vocabulary, whose normalized vector the classifier predicts
    positive, and [X] and [y] come with them in debug mode only. *)
Theorem learn_full_specific_words_result :
  forall (shuffle : list (vec * bool) -> list (vec * bool))
         (LinearSVC : Type)
         (LinearSVC_fit : list vec -> list Z -> exn + LinearSVC)
         (predict : LinearSVC -> vec -> bool)
         (self : loc) (o : BiasWordsEmbedding) (kv : KeyedVectors)
         (seed_specific_words : list string)
         (max_non_specific_examples : option Z)
         (debug : option bool) (h h' : heap) (r : learned LinearSVC),
    instances h !! self = Some o ->
    models h !! model o = Some kv ->
    learn_full_specific_words shuffle LinearSVC LinearSVC_fit predict self
      seed_specific_words max_non_specific_examples debug h = (inr r, h') ->
    h' = h /\
    exists X y,
      training_set shuffle self seed_specific_words
        max_non_specific_examples h = (inr (X, y), h) /\
      LinearSVC_fit X y = inr (clf LinearSVC r) /\
      full_specific_words LinearSVC r
      = List.filter
          (fun w => predict (clf LinearSVC r) (normalize (row kv w)))
          (vocab kv) /\
      debug_X_y LinearSVC r
      = match debug with
        | Some true => Some (X, y)
        | _ => None
        end.
Proof.
  intros shuffle LinearSVC fit predict self o kv seeds mx debug h h' r Ho Hm
    E.
  unfold learn_full_specific_words in E.
  apply bind_inr_inv in E. destruct E as ([X y] & h1 & Et & E).
  pose proof (read_only_run _ _ _ _ (read_only_training_set _ _ _ _) Et).
  subst h1.
  apply bind_inr_inv in E. destruct E as (c & h1 & Ef & E).
  unfold lift_exn in Ef. injection Ef as Ef <-.
  rewrite (bind_inr _ _ _ _ _ (get_instance_some _ _ _ Ho)) in E.
  rewrite (bind_inr _ _ _ _ _ (get_model_some _ _ _ Hm)) in E.
  assert (Hrows : map_M (fun word => bind (__getitem__ self word)
                                       (fun v => ret (word, normalize v)))
                    (vocab kv) h
                  = (inr (map (fun w => (w, normalize (row kv w)))
                            (vocab kv)), h)).
  { apply map_M_run. intros w Hw.
    destruct (word_vec_in_vocab kv w Hw) as [v Hv].
    rewrite (bind_inr _ _ _ _ _ (getitem_run _ _ _ _ _ _ Ho Hm Hv)).
    unfold row. now rewrite Hv. }
  rewrite (bind_inr _ _ _ _ _ Hrows) in E.
  unfold ret in E. injection E as <- <-.
  split; [reflexivity |]. exists X, y. simpl.
  split; [exact Et |]. split; [exact Ef |]. split.
  - generalize (vocab kv). intros l.
    induction l as [| w l IH]; simpl; [reflexivity |].
    destruct (predict c (normalize (row kv w))); simpl; now rewrite IH.
  - now destruct debug as [[|] |].
Qed.

(** ** Identifying the direction *)

Lemma bind_cases {A B} (c : M A) (k : A -> M B) h r h' :
  bind c k h = (r, h') ->
  (exists e, c h = (inl e, h') /\ r = inl e) \/
  (exists a h1, c h = (inr a, h1) /\ k a h1 = (r, h')).
Proof.
  unfold bind. destruct (c h) as [[e | a] h1]; intros E.
  - left. exists e. now injection E as <- <-.
  - right. now exists a, h1.
Qed.

Lemma read_only_fails {A} (c : M A) h e h' :
  read_only c -> c h = (inl e, h') -> h' = h.
Proof. intros Hc E. exact (read_only_run c h (inl e) h' Hc E). Qed.

(** X18. Identifying the direction is all or nothing, and touches nothing
    but the instance: whatever the method, the definitional words and the
    outcome, no store and no other instance is written; when an exception
    is raised the heap is as before; when it returns, the instance has kept
    its model and its flags and holds a direction and the two ends. *)
Theorem identify_direction_frame :
  forall (PCA_fit : nat -> list vec -> exn + PCA) (self : loc)
         (positive negative : string) (definitional : definitional_words)
         (method : string) (h h' : heap) (r : exn + unit),
    _identify_direction PCA_fit self positive negative definitional method h
    = (r, h') ->
    models h' = models h /\
    (forall other, other <> self ->
                   instances h' !! other = instances h !! other) /\
    match r with
    | inl _ => h' = h
    | inr _ =>
        exists o d,
          instances h !! self = Some o /\
          instances h' !! self = Some (with_direction o d positive negative)
    end.
Proof.
  intros PCA_fit self pos neg definitional method h h' r E.
  assert (Hfail : forall e, r = inl e -> h' = h ->
            models h' = models h /\
            (forall other, other <> self ->
                           instances h' !! other = instances h !! other) /\
            match r with
            | inl _ => h' = h
            | inr _ =>
                exists o d,
                  instances h !! self = Some o /\
                  instances h' !! self
                  = Some (with_direction o d pos neg)
            end).
  { intros e -> ->. auto. }
  unfold _identify_direction in E.
  destruct (negb (in_list method DIRECTION_METHODS)).
  { injection E as <- <-. now apply (Hfail _ eq_refl). }
  destruct (String.eqb pos neg).
  { injection E as <- <-. now apply (Hfail _ eq_refl). }
  apply bind_cases in E. destruct E as [(e & E & ->) | (d0 & h1 & Ed & E)].
  { apply (Hfail e eq_refl).
    exact (read_only_fails _ _ _ _ (read_only_direction _ _ _ _) E). }
  apply (read_only_run _ _ _ _ (read_only_direction _ _ _ _)) in Ed.
  subst h1.
  apply bind_cases in E. destruct E as [(e & E & ->) | (vp & h1 & Ep & E)].
  { apply (Hfail e eq_refl).
    exact (read_only_fails _ _ _ _ (read_only_getitem _ _) E). }
  apply (read_only_run _ _ _ _ (read_only_getitem _ _)) in Ep. subst h1.
  apply bind_cases in E. destruct E as [(e & E & ->) | (vn & h1 & En & E)].
  { apply (Hfail e eq_refl).
    exact (read_only_fails _ _ _ _ (read_only_getitem _ _) E). }
  apply (read_only_run _ _ _ _ (read_only_getitem _ _)) in En. subst h1.
  apply bind_cases in E. destruct E as [(e & E & ->) | (o & h1 & Eo & E)].
  { apply (Hfail e eq_refl).
    exact (read_only_fails _ _ _ _ (read_only_get_instance _) E). }
  unfold get_instance in Eo.
  destruct (instances h !! self) as [o' |] eqn:Ho; [| discriminate].
  injection Eo as -> <-.
  unfold set_instance in E. injection E as <- <-.
  split; [reflexivity |]. split.
  - intros other Hne. cbn [instances]. now apply lookup_insert_ne.
  - eexists o, _. split; [reflexivity |].
    cbn [instances]. unfold with_direction. apply lookup_insert_eq.
Qed.

Lemma pca_matrix_run self o kv h pairs :
  instances h !! self = Some o ->
  models h !! model o = Some kv ->
  (forall w1 w2, In (w1, w2) pairs ->
                 In w1 (vocab kv) /\ In w2 (vocab kv)) ->
  pca_matrix self pairs h = (inr (pca_rows kv pairs), h).
Proof.
  intros Ho Hm. induction pairs as [| [w1 w2] rest IH]; intros Hin;
    [reflexivity |].
  destruct (Hin w1 w2 (or_introl eq_refl)) as [H1 H2].
  destruct (word_vec_in_vocab kv w1 H1) as [v1 Hv1].
  destruct (word_vec_in_vocab kv w2 H2) as [v2 Hv2].
  cbn [pca_matrix pca_rows].
  rewrite (bind_inr _ _ _ _ _ (getitem_run _ _ _ _ _ _ Ho Hm Hv1)).
  rewrite (bind_inr _ _ _ _ _ (getitem_run _ _ _ _ _ _ Ho Hm Hv2)).
  rewrite (bind_inr _ _ _ _ _
             (IH (fun a b H => Hin a b (or_intror H)))).
  unfold row. now rewrite Hv1, Hv2.
Qed.

(** X19. The threshold on the first principal component.  With the method
    [pca] and definitional pairs of the vocabulary, a first explained
    variance ratio below 0.5 stops the identification with the
    [RuntimeError] about it, before the ends are looked up, and leaves the
    heap as it is; a ratio of at least 0.5, and also a ratio that is not a
    number, lets the first component through, which is stored up to its
    sign. *)
Theorem identify_direction_pca_threshold :
  forall (PCA_fit : nat -> list vec -> exn + PCA) (self : loc)
         (o : BiasWordsEmbedding) (kv : KeyedVectors)
         (positive negative : string) (pairs : list (string * string))
         (pca : PCA) (ratio : npfloat) (ratios : list npfloat) (h : heap),
    instances h !! self = Some o ->
    models h !! model o = Some kv ->
    positive <> negative ->
    (forall w1 w2, In (w1, w2) pairs ->
                   In w1 (vocab kv) /\ In w2 (vocab kv)) ->
    PCA_fit 10%nat (pca_rows kv pairs) = inr pca ->
    explained_variance_ratio_ pca = ratio :: ratios ->
    (flt ratio FIRST_PC_THRESHOLD = true ->
     _identify_direction PCA_fit self positive negative (Pairs pairs) "pca" h
     = (inl (RuntimeError_first_pc ratio), h)) /\
    (is_nan ratio = true \/ fge ratio FIRST_PC_THRESHOLD = true ->
     forall (component : vec) (components : list vec)
            (v_positive v_negative : vec),
       components_ pca = component :: components ->
       word_vec kv positive = Some v_positive ->
       word_vec kv negative = Some v_negative ->
       _identify_direction PCA_fit self positive negative (Pairs pairs)
         "pca" h
       = (inr tt,
          mkHeap (models h)
            (<[self := with_direction o
                         (if flt (cosine_similarity
                                    (vsub v_positive v_negative) component)
                               0%float
                          then vneg component else component)
                         positive negative]> (instances h)))).
Proof.
  intros PCA_fit self o kv pos neg pairs pca ratio ratios h Ho Hm Hne Hin
    Hfit Hratio.
  assert (Hpca : _identify_subspace_by_pca PCA_fit self pairs 10 h
                 = (inr pca, h)).
  { unfold _identify_subspace_by_pca.
    rewrite (bind_inr _ _ _ _ _ (pca_matrix_run _ _ _ _ _ Ho Hm Hin)).
    unfold lift_exn. now rewrite Hfit. }
  assert (Hstart :
            forall k : vec -> M unit,
              bind (direction_pca PCA_fit self (Pairs pairs)) k h
              = if flt ratio FIRST_PC_THRESHOLD
                then (inl (RuntimeError_first_pc ratio), h)
                else bind (index (components_ pca) 0) k h).
  { intros k. unfold direction_pca.
    unfold bind at 1. unfold bind at 1. rewrite Hpca.
    unfold index at 1. rewrite Hratio. cbn [nth_error]. unfold bind at 1.
    unfold ret at 1. destruct (flt ratio FIRST_PC_THRESHOLD); reflexivity. }
  unfold _identify_direction.
  change (negb (in_list "pca" DIRECTION_METHODS)) with false.
  rewrite (proj2 (String.eqb_neq pos neg) Hne).
  change (String.eqb "pca" "single") with false.
  change (String.eqb "pca" "sum") with false. cbv iota.
  rewrite Hstart. split.
  - intros Hx. now rewrite Hx.
  - intros Hok component components vp vn Hc Hp Hn.
    assert (Hflt : flt ratio FIRST_PC_THRESHOLD = false).
    { destruct Hok as [Hnan | Hge];
        [now apply flt_nan_l | now apply fge_not_flt]. }
    rewrite Hflt. unfold index. rewrite Hc. cbn [nth_error].
    rewrite bind_ret_l.
    rewrite (bind_inr _ _ _ _ _ (getitem_run _ _ _ _ _ _ Ho Hm Hp)).
    rewrite (bind_inr _ _ _ _ _ (getitem_run _ _ _ _ _ _ Ho Hm Hn)).
    rewrite (bind_inr _ _ _ _ _ (get_instance_some _ _ _ Ho)).
    reflexivity.
Qed.
Lemma map_M_one {A B} (f : A -> M B) (a : A) h :
  map_M f [a] h
  = match f a h with
    | (inl e, h1) => (inl e, h1)
    | (inr b, h1) => (inr [b], h1)
    end.
Proof.
  simpl. unfold bind, ret. now destruct (f a h) as [[e | b] h1].
Qed.

(** X22. On one pair the methods [sum] and [single] agree: identifying the
    direction with [sum] from the single pair [(w0, w1)] does what
    [single] does from words that start with [w0] and [w1] (of which it
    reads the first two only), whatever the heap is: the same result or
    exception and the same heap. *)
Theorem identify_direction_sum_of_one_pair :
  forall (PCA_fit : nat -> list vec -> exn + PCA) (self : loc)
         (positive negative w0 w1 : string) (others : list string)
         (h : heap),
    _identify_direction PCA_fit self positive negative (Pairs [(w0, w1)])
      "sum" h
    = _identify_direction PCA_fit self positive negative
        (OnePair (w0 :: w1 :: others)) "single" h.
Proof.
  intros PCA_fit self pos neg w0 w1 others h.
  unfold _identify_direction.
  change (negb (in_list "sum" DIRECTION_METHODS)) with false.
  change (negb (in_list "single" DIRECTION_METHODS)) with false.
  change (String.eqb "sum" "single") with false.
  change (String.eqb "sum" "sum") with true.
  change (String.eqb "single" "single") with true. cbv iota.
  destruct (String.eqb pos neg); [reflexivity |].
  assert (Hd : direction_sum self (Pairs [(w0, w1)]) h
               = direction_single self (OnePair (w0 :: w1 :: others)) h).
  { unfold direction_sum, direction_single, index. cbn [map fst snd nth_error].
    unfold bind, ret. rewrite map_M_one.
    destruct (__getitem__ self w0 h) as [[e | v0] h1]; [reflexivity |].
    rewrite map_M_one.
    destruct (__getitem__ self w1 h1) as [[e | v1] h2]; reflexivity. }
  unfold bind at 1. rewrite Hd. reflexivity.
Qed.

(** ** Equality sets *)

Lemma for_each_app {A} (body : A -> M unit) (l1 l2 : list A) h :
  for_each body (l1 ++ l2) h
  = bind (for_each body l1) (fun _ => for_each body l2) h.
Proof.
  revert h. induction l1 as [| x l1 IH]; intros h; simpl.
  - now rewrite bind_ret_l.
  - unfold bind in *. destruct (body x h) as [[e | []] h1];
      [reflexivity |]. apply IH.
Qed.

Lemma normalized_rows_missing kv before w after :
  (forall x, In x before -> In x (vocab kv)) ->
  ~ In w (vocab kv) ->
  normalized_rows kv (before ++ w :: after) = inl (KeyError w).
Proof.
  intros Hb Hw. induction before as [| x before IH]; simpl.
  - destruct (word_vec kv w) as [v |] eqn:E; [| reflexivity].
    exfalso. apply Hw, word_vec_some_iff_vocab. now exists v.
  - destruct (word_vec_in_vocab kv x (Hb x (or_introl eq_refl))) as [v ->].
    now rewrite IH by (intros y Hy; apply Hb; now right).
Qed.

(** X23. An equality set with a word that is not in the vocabulary writes
    nothing.  The rows of a set are all read before the first of them is
    rewritten, so [_equalize] stops at such a set with the [KeyError] of
    its first missing word and leaves the store as the sets before it have
    made it: no member of the failing set has been equalized, the sets
    after it are not looked at, and the rows are not renormalized. *)
Theorem equalize_missing_word_writes_nothing :
  forall (self : loc) (o : BiasWordsEmbedding) (kv : KeyedVectors)
         (sets_before sets_after : list (list string))
         (before after : list string) (w : string) (h h1 : heap),
    instances h !! self = Some o ->
    models h !! model o = Some kv ->
    for_each (equalize_set self) sets_before h = (inr tt, h1) ->
    (forall x, In x before -> In x (vocab kv)) ->
    ~ In w (vocab kv) ->
    equalize_set self (before ++ w :: after) h1 = (inl (KeyError w), h1) /\
    _equalize self
      (Some (sets_before ++ (before ++ w :: after) :: sets_after)) h
    = (inl (KeyError w), h1).
Proof.
  intros self o kv sets_before sets_after before after w h h1 Ho Hm Hloop Hb
    Hw.
  rewrite <- (with_store_same h (model o) kv Hm) in Hloop.
  pose proof (equalize_loop_run self o h Ho sets_before kv) as Hrun.
  rewrite Hloop in Hrun. injection Hrun as Hout ->.
  set (kv1 := snd (equalize_rows (direction o) sets_before kv)) in *.
  assert (Hv : vocab kv1 = vocab kv) by apply vocab_equalize_rows.
  assert (Hset : equalize_set self (before ++ w :: after)
                   (with_store h (model o) kv1)
                 = (inl (KeyError w), with_store h (model o) kv1)).
  { rewrite (equalize_set_run self o h _ kv1 Ho).
    unfold equalize_set_rows.
    rewrite normalized_rows_missing; [reflexivity | | ]; now rewrite Hv. }
  split; [exact Hset |].
  rewrite <- (with_store_same h (model o) kv Hm) at 1.
  unfold _equalize, iter. rewrite bind_ret_l.
  apply bind_inl. rewrite for_each_app.
  rewrite (bind_inr _ _ _ _ _ Hloop).
  cbn [for_each]. now apply bind_inl.
Qed.

(** ** What the neutralize step leaves in the store *)

(** A word that occurs [n] times in the list has its row rejected [n]
    times. *)
Lemma neutralize_rows_iter d words :
  forall kv,
    fst (neutralize_rows d words kv) = None ->
    forall x v,
      word_vec kv x = Some v ->
      word_vec (snd (neutralize_rows d words kv)) x
      = Some (Nat.iter (count_occ string_dec words x)
                (fun r => reject_vector r d) v).
Proof.
  induction words as [| w rest IH]; intros kv Hok x v Hx;
    cbn [neutralize_rows] in *; [exact Hx |].
  destruct (word_vec kv w) as [u |] eqn:Hu; [| discriminate].
  destruct (string_dec w x) as [-> | Hne].
  - rewrite Hu in Hx. injection Hx as <-.
    rewrite (IH _ Hok x (reject_vector u d))
      by (eapply word_vec_set_row_eq, Hu).
    rewrite count_occ_cons_eq by reflexivity.
    now rewrite Nat.iter_succ_r.
  - rewrite count_occ_cons_neq by exact Hne.
    apply (IH _ Hok). now rewrite word_vec_set_row_ne.
Qed.




(** ** What [debias] returns and leaves *)

Lemma result_of_inr {A} (e : option exn) (a r : A) :
  result_of e a = inr r -> e = None /\ r = a.
Proof. destruct e; simpl; [discriminate |]. now intros [= ->]. Qed.

Lemma debias_store_neutralize d words equality_sets kv :
  debias_store d "neutralize" words equality_sets kv
  = neutralize_store d words kv.
Proof.
  unfold debias_store.
  change (negb (in_list "neutralize" DEBIAS_METHODS)) with false.
  change (in_list "neutralize" ["hard"; "neutralize"]%string) with true.
  change (String.eqb "neutralize" "hard") with false. cbv iota.
  now destruct (neutralize_store d words kv) as [[e |] kv1].
Qed.

Lemma debias_store_neutralized d method words equality_sets kv :
  method = "neutralize"%string ->
  fst (debias_store d method words equality_sets kv) = None ->
  exists d' words',
    d = Some d' /\ words = Some words' /\
    forall w v,
      word_vec kv w = Some v ->
      word_vec (snd (debias_store d method words equality_sets kv)) w
      = Some (renormalized_row
                (Nat.iter (count_occ string_dec words' w)
                   (fun r => reject_vector r d') v)).
Proof.
  intros -> Hok. rewrite debias_store_neutralize in *.
  unfold neutralize_store in *.
  destruct d as [d' |]; [| discriminate].
  destruct words as [words' |]; [| discriminate].
  exists d', words'. split; [reflexivity |]. split; [reflexivity |].
  intros w v Hw. unfold renormalized in *.
  destruct (neutralize_rows d' words' kv) as [[e |] kv1] eqn:E;
    [discriminate |].
  simpl. rewrite word_vec_init_sims_replace.
  pose proof (neutralize_rows_iter d' words' kv) as Hrows.
  rewrite E in Hrows. simpl in Hrows. now rewrite (Hrows eq_refl w v Hw).
Qed.

Lemma debias_store_hard d words equality_sets kv :
  fst (debias_store d "hard" words equality_sets kv) = None ->
  exists d' words' sets,
    d = Some d' /\ words = Some words' /\ equality_sets = Some sets /\
    snd (debias_store d "hard" words equality_sets kv)
    = init_sims_replace
        (snd (equalize_rows (Some d') sets
                (init_sims_replace (snd (neutralize_rows d' words' kv))))).
Proof.
  unfold debias_store.
  change (negb (in_list "hard" DEBIAS_METHODS)) with false.
  change (in_list "hard" ["hard"; "neutralize"]%string) with true.
  change (String.eqb "hard" "hard") with true. cbv iota.
  unfold neutralize_store.
  destruct d as [d' |]; [| discriminate].
  destruct words as [words' |]; [| discriminate].
  unfold renormalized at 1.
  destruct (neutralize_rows d' words' kv) as [[e |] kv1] eqn:E1;
    [discriminate |].
  unfold equalize_store.
  destruct equality_sets as [sets |]; [| discriminate].
  unfold renormalized.
  destruct (equalize_rows (Some d') sets (init_sims_replace kv1))
    as [[e |] kv2] eqn:E2; [discriminate |].
  intros _. exists d', words', sets. rewrite E1. simpl. now rewrite E2.
Qed.

(** C10. When [debias] returns, with the store [kv'] that the steps of
    the method make of the store [kv] of [self]: with [inplace=True] it
    returns [None] and the instance itself is mutated, its store being
    [kv'] afterwards and nothing else having changed; with [inplace=False]
    it returns an object that did not exist before the call, hence not
    [self]: the deep copy, whose store is a new one and holds [kv'], while
    the store of [self] still holds [kv].  The words of [kv'] are those of
    [kv]; with the method [neutralize] every word holds in [kv'] its
    former vector, rejected from the direction once for every occurrence
    of the word in the neutral list, and divided by its norm; with [hard]
    the equality sets are equalized after that and the store renormalized
    again; with [soft] [kv'] is [kv]. *)
Theorem debias_return_value :
  forall (self : loc) (o : BiasWordsEmbedding) (kv : KeyedVectors)
         (method : string) (neutral_words : option (list string))
         (equality_sets : option (list (list string))) (inplace : bool)
         (h : heap) (r : option loc),
    instances h !! self = Some o ->
    models h !! model o = Some kv ->
    fst (debias self method neutral_words equality_sets inplace h) = inr r ->
    let h' := snd (debias self method neutral_words equality_sets inplace h) in
    let kv' := snd (debias_store (direction o) method neutral_words
                      equality_sets kv) in
    (if inplace
     then r = None /\ h' = with_store h (model o) kv'
     else exists b c,
         r = Some b /\ b <> self /\ instances h !! b = None /\
         instances h' !! b = Some c /\
         models h !! model c = None /\
         models h' !! model c = Some kv' /\
         models h' !! model o = Some kv /\
         direction c = direction o /\
         positive_end c = positive_end o /\
         negative_end c = negative_end o) /\
    vocab kv' = vocab kv /\
    (method = "neutralize"%string ->
     exists d words,
       direction o = Some d /\ neutral_words = Some words /\
       forall w v,
         word_vec kv w = Some v ->
         word_vec kv' w
         = Some (renormalized_row
                   (Nat.iter (count_occ string_dec words w)
                      (fun x => reject_vector x d) v))) /\
    (method = "hard"%string ->
     exists d words sets,
       direction o = Some d /\ neutral_words = Some words /\
       equality_sets = Some sets /\
       kv' = init_sims_replace
               (snd (equalize_rows (Some d) sets
                       (init_sims_replace
                          (snd (neutralize_rows d words kv)))))) /\
    (method = "soft"%string -> kv' = kv).
Proof.
  intros self o kv method nw es inplace h r Ho Hm Hr h' kv'.
  assert (Hrun : exists b hb,
             debias self method nw es inplace h
             = (result_of
                  (fst (debias_store (direction o) method nw es kv))
                  (if inplace then None else Some b),
                with_store hb (if inplace then model o
                               else fresh (dom (models h))) kv') /\
             (if inplace then hb = h
              else b = fresh (dom (instances h)) /\
                   hb = deepcopy_heap o kv h)).
  { destruct inplace.
    - exists self, h. split; [| reflexivity].
      rewrite debias_unfold, bind_ret_l.
      rewrite <- (with_store_same h (model o) kv Hm) at 1.
      apply (debias_steps_run self o h method nw es true kv Ho).
    - exists (fresh (dom (instances h))), (deepcopy_heap o kv h).
      split; [| now split].
      destruct (debias_not_inplace_run self o kv method nw es h Ho Hm)
        as [-> _].
      rewrite <- (with_store_same (deepcopy_heap o kv h)
                    (fresh (dom (models h))) kv
                    (deepcopy_heap_model o kv h)) at 1.
      apply (debias_steps_run (fresh (dom (instances h)))
               (deepcopy_instance o h) (deepcopy_heap o kv h) method nw es
               false kv (deepcopy_heap_instance o kv h)). }
  destruct Hrun as (b & hb & Hrun & Hb).
  unfold h'. rewrite Hrun in Hr |- *. simpl in Hr. simpl snd.
  apply result_of_inr in Hr. destruct Hr as [Hok ->].
  split; [| split; [apply vocab_debias_store | split; [| split]]].
  - destruct inplace.
    + subst hb. now split.
    + destruct Hb as [-> ->].
      exists (fresh (dom (instances h))), (deepcopy_instance o h).
      assert (Hfresh : fresh (dom (models h)) <> model o).
      { intros E. rewrite <- E in Hm. rewrite fresh_model_none in Hm.
        discriminate. }
      split; [reflexivity |]. split.
      { intros E. rewrite <- E in Ho. rewrite fresh_instance_none in Ho.
        discriminate. }
      split; [apply fresh_instance_none |].
      split; [exact (deepcopy_heap_instance o kv h) |].
      split; [apply fresh_model_none |].
      split; [apply with_store_model |].
      split; [| repeat split].
      simpl. rewrite !lookup_insert_ne by exact Hfresh. exact Hm.
  - intros E. now apply debias_store_neutralized.
  - intros ->. now apply debias_store_hard.
  - intros ->. reflexivity.
Qed.

(** ** The equalize step on a pair of words *)



(** ** The scaling factor of the equalize step *)

(** The square root of a zero is that zero. *)
Lemma fsqrt_zero x :
  flt x 0%float = false -> flt 0%float x = false -> is_nan x = false ->
  fsqrt x = x.
Proof.
  unfold flt, is_nan, PrimFloat.is_nan, fsqrt.
  rewrite !FloatAxioms.ltb_spec, FloatAxioms.eqb_spec, Prim2SF_zero.
  intros Hneg Hpos Hnan. apply Prim2SF_inj. rewrite sqrt_spec.
  unfold SF64sqrt, SFltb, SFeqb in *.
  destruct (Prim2SF x) as [s | s | | s m e]; simpl in *;
    try reflexivity; try discriminate; destruct s; discriminate.
Qed.

(** C4 (amended). The scaling factor of [_equalize] is the square root of
    the radicand [1 − ‖rejected_center‖²] as computed, without a clamp.
    When the radicand is below zero, as rounding can make it, or not a
    number, the factor is [NaN]; when it is above zero the factor is the
    clamped value [sqrt(max(0, 1 − ‖rejected_center‖²))]; otherwise the
    radicand is a zero, and the factor is that zero.  The clamped value is
    the square root of the radicand when that is above zero, and zero in
    every other case. *)
Theorem scaling_factor_not_clamped :
  forall rejected_center : vec,
    let r := radicand rejected_center in
    scaling_factor rejected_center
    = (if flt r 0%float || is_nan r then NaN
       else if flt 0%float r then clamped_scaling_factor rejected_center
            else r)
    /\ clamped_scaling_factor rejected_center
       = (if flt 0%float r then fsqrt r else 0%float).
Proof.
  intros rc r.
  assert (Hs : scaling_factor rc = fsqrt r) by reflexivity.
  assert (Hc : clamped_scaling_factor rc
               = if flt 0%float r then fsqrt r else 0%float).
  { unfold clamped_scaling_factor, py_max. fold r.
    now destruct (flt 0%float r). }
  split; [| exact Hc].
  rewrite Hs, Hc.
  destruct (flt r 0%float) eqn:Hneg; simpl.
  - now apply fsqrt_negative.
  - destruct (is_nan r) eqn:Hnan; [now apply fsqrt_nan |].
    destruct (flt 0%float r) eqn:Hpos; [reflexivity |].
    now apply fsqrt_zero.
Qed.

(** ** The examples [learn_full_specific_words] is fitted on *)

Lemma labelled_rows_seeds kv seeds :
  map (fun w => (row kv w, in_list w seeds))
    (List.filter (fun w => in_list w seeds) (vocab kv))
  = map (fun w => (row kv w, true))
      (List.filter (fun w => in_list w seeds) (vocab kv)).
Proof.
  apply labelled_rows_of_filter. intros w Hw. now apply filter_In in Hw.
Qed.

Lemma labelled_rows_others kv seeds cap :
  map (fun w => (row kv w, in_list w seeds))
    (firstn (Z.to_nat cap)
       (List.filter (fun w => negb (in_list w seeds)) (vocab kv)))
  = capped_others kv seeds cap.
Proof.
  unfold capped_others. apply labelled_rows_of_filter. intros w Hw.
  apply firstn_In, filter_In in Hw. now apply negb_true_iff.
Qed.

Lemma combine_features_labels data :
  combine (features data) (labels data) = map as_training_example data.
Proof. unfold features, labels. apply combine_map_map. Qed.

Lemma vocabulary_rows_run self o kv h :
  instances h !! self = Some o ->
  models h !! model o = Some kv ->
  map_M (fun word => bind (__getitem__ self word)
                       (fun v => ret (word, normalize v)))
    (vocab kv) h
  = (inr (map (fun w => (w, normalize (row kv w))) (vocab kv)), h).
Proof.
  intros Ho Hm. apply map_M_run. intros w Hw.
  destruct (word_vec_in_vocab kv w Hw) as [v Hv].
  rewrite (bind_inr _ _ _ _ _ (getitem_run _ _ _ _ _ _ Ho Hm Hv)).
  unfold row. now rewrite Hv.
Qed.

Lemma predicted_words {C} (predict : C -> vec -> bool) (c : C) kv
      (l : list string) :
  map (fun wv : string * vec => fst wv)
    (List.filter (fun wv : string * vec => predict c (snd wv))
       (map (fun w => (w, normalize (row kv w))) l))
  = List.filter (fun w => predict c (normalize (row kv w))) l.
Proof.
  induction l as [| w l IH]; simpl; [reflexivity |].
  destruct (predict c (normalize (row kv w))); simpl; now rewrite IH.
Qed.

(** C9 (amended). [learn_full_specific_words] fits the classifier on a
    labelled dataset that contains exactly: every seed-specific word of
    the vocabulary, once, with label true (a seed word outside the
    vocabulary has no vector and is passed over), and the first
    [max_non_specific_examples] vocabulary words that are not seed words,
    in the order of the vocabulary, with label false.  The examples are
    collected in the order of the vocabulary, shuffled, and their rows
    scaled to unit length; the features [X] and labels [y] so obtained are
    what [LinearSVC.fit] is called with, and the call returns the
    classifier fitted on them together with the vocabulary words it
    predicts positive ([X] and [y] too in debug mode).  When there is no
    example the call raises a [ValueError] before any fit. *)
Theorem learn_full_specific_words_dataset :
  forall (shuffle : list (vec * bool) -> list (vec * bool))
         (LinearSVC : Type)
         (LinearSVC_fit : list vec -> list Z -> exn + LinearSVC)
         (predict : LinearSVC -> vec -> bool)
         (self : loc) (o : BiasWordsEmbedding) (kv : KeyedVectors)
         (seed_specific_words : list string)
         (max_non_specific_examples : option Z)
         (debug : option bool) (h : heap),
    (forall l, Permutation l (shuffle l)) ->
    instances h !! self = Some o ->
    models h !! model o = Some kv ->
    let cap := match max_non_specific_examples with
               | None => MAX_NON_SPECIFIC_EXAMPLES
               | Some n => n
               end in
    exists data,
      collect_examples self seed_specific_words cap (vocab kv) [] 0%Z h
      = (inr data, h) /\
      List.filter (fun d : vec * bool => snd d) data
      = map (fun w => (row kv w, true))
          (List.filter (fun w => in_list w seed_specific_words) (vocab kv)) /\
      List.filter (fun d : vec * bool => negb (snd d)) data
      = capped_others kv seed_specific_words cap /\
      let X := features (shuffle data) in
      let y := labels (shuffle data) in
      Permutation (combine X y)
        (map as_training_example
           (vocabulary_dataset kv seed_specific_words cap)) /\
      learn_full_specific_words shuffle LinearSVC LinearSVC_fit predict self
        seed_specific_words max_non_specific_examples debug h
      = match vocabulary_dataset kv seed_specific_words cap with
        | [] => (inl (ValueError "not enough values to unpack"), h)
        | _ :: _ =>
            match LinearSVC_fit X y with
            | inl e => (inl e, h)
            | inr c =>
                (inr (mkLearned LinearSVC
                        (List.filter
                           (fun w => predict c (normalize (row kv w)))
                           (vocab kv))
                        c
                        match debug with
                        | Some true => Some (X, y)
                        | _ => None
                        end), h)
            end
        end.
Proof.
  intros shuffle LinearSVC fit predict self o kv seeds mx debug h Hperm Ho Hm
    cap.
  pose proof (collect_examples_run self o kv seeds cap h Ho Hm
                (vocab kv) [] 0%Z (fun w H => H)) as Hrun.
  simpl in Hrun.
  set (data := map (fun w => (row kv w, in_list w seeds))
                 (kept_words seeds cap (vocab kv) 0)) in *.
  assert (Hdata : Permutation data (vocabulary_dataset kv seeds cap)).
  { rewrite <- labelled_rows_vocabulary_dataset. apply Permutation_map.
    rewrite (kept_words_permutation seeds cap (vocab kv) 0%Z).
    now rewrite Z.sub_0_r. }
  exists data. split; [exact Hrun |]. split; [| split].
  - unfold data. rewrite filter_true_labelled_rows, kept_words_specific.
    apply labelled_rows_seeds.
  - unfold data. rewrite filter_labelled_rows, kept_words_non_specific.
    rewrite Z.sub_0_r. apply labelled_rows_others.
  - intros X y. split.
    + unfold X, y. rewrite combine_features_labels.
      apply Permutation_map. now rewrite <- (Hperm data).
    + assert (Ht : training_set shuffle self seeds mx h
                   = match shuffle data with
                     | [] => (inl (ValueError "not enough values to unpack"),
                              h)
                     | _ :: _ => (inr (X, y), h)
                     end).
      { unfold training_set. fold cap.
        rewrite (bind_inr _ _ _ _ _ (get_instance_some _ _ _ Ho)).
        rewrite (bind_inr _ _ _ _ _ (get_model_some _ _ _ Hm)).
        rewrite (bind_inr _ _ _ _ _ Hrun).
        unfold X, y. now destruct (shuffle data). }
      assert (Hshape : match shuffle data,
                             vocabulary_dataset kv seeds cap with
                       | [], [] | _ :: _, _ :: _ => True
                       | _, _ => False
                       end).
      { pose proof (Permutation_length Hdata) as Hl.
        pose proof (Permutation_length (Hperm data)) as Hl'.
        destruct (shuffle data), (vocabulary_dataset kv seeds cap);
          simpl in *; auto; lia. }
      unfold learn_full_specific_words.
      destruct (shuffle data) as [| e l] eqn:Es,
               (vocabulary_dataset kv seeds cap) as [| e' l'];
        try contradiction.
      * now rewrite (bind_inl _ _ _ _ _ Ht).
      * rewrite (bind_inr _ _ _ _ _ Ht). cbv beta iota.
        unfold lift_exn. unfold bind at 1.
        destruct (fit X y) as [err | c]; [reflexivity |].
        rewrite (bind_inr _ _ _ _ _ (get_instance_some _ _ _ Ho)).
        rewrite (bind_inr _ _ _ _ _ (get_model_some _ _ _ Hm)).
        rewrite (bind_inr _ _ _ _ _ (vocabulary_rows_run self o kv h Ho Hm)).
        unfold ret. rewrite predicted_words.
        now destruct debug as [[|] |].
Qed.

(** * The small embedding *)

Module ExampleFacts.
Import Example.

Lemma heap0_instance : instances heap0 !! 0%nat = Some unidentified.
Proof. apply lookup_singleton_eq. Qed.

Lemma heap0_model : models heap0 !! model unidentified = Some store.
Proof. apply lookup_singleton_eq. Qed.

Lemma heap1_instance : instances heap1 !! 0%nat = Some identified.
Proof. apply lookup_singleton_eq. Qed.

Lemma heap1_model : models heap1 !! model identified = Some store.
Proof. apply lookup_singleton_eq. Qed.

Lemma in_store (words : list string) :
  forallb (contains store) words = true ->
  forall x, In x words -> In x (vocab store).
Proof.
  intros H x Hx. rewrite forallb_forall in H. specialize (H x Hx).
  unfold contains in H. apply word_vec_some_iff_vocab.
  destruct (word_vec store x) as [v |]; [eauto | discriminate].
Qed.

(** A call that returns [a], with the heap it leaves. *)
Lemma run_of {A} (c : (exn + A) * heap) (a : A) :
  fst c = inr a -> c = (inr a, snd c).
Proof. destruct c as [r h']. simpl. now intros ->. Qed.

End ExampleFacts.

(** ** The theorems on the small embedding *)

Section Runs.
Import Example ExampleFacts.





Lemma identify_he_she_run :
  fst (_identify_direction no_PCA 0%nat "he" "she"
         (OnePair ["he"; "she"]%string) "single" heap0) = inr tt.
Proof.
  now rewrite (identify_single_run no_PCA 0%nat unidentified store heap0
                 "he" "she" "he" "she" he she he she
                 heap0_instance heap0_model).
Qed.

(** Identifying the direction from the pair ("he", "she"). *)
Lemma identify_direction_sign_calibrated_witness :
  let h' := snd (_identify_direction no_PCA 0%nat "he" "she"
                   (OnePair ["he"; "she"]%string) "single" heap0) in
  exists o' d v_positive v_negative,
    instances h' !! 0%nat = Some o' /\
    direction o' = Some d /\
    positive_end o' = Some "he"%string /\
    negative_end o' = Some "she"%string /\
    __getitem__ 0%nat "he" h' = (inr v_positive, h') /\
    __getitem__ 0%nat "she" h' = (inr v_negative, h') /\
    flt (cosine_similarity (vsub v_positive v_negative) d) 0%float = false /\
    fge (cosine_similarity (vsub v_positive v_negative) d) 0%float
    = negb (is_nan (cosine_similarity (vsub v_positive v_negative) d)).
Proof.
  intros h'.
  apply (identify_direction_sign_calibrated no_PCA 0%nat "he" "she"
           (OnePair ["he"; "she"]%string) "single" heap0 h').
  unfold h'. rewrite <- identify_he_she_run. apply surjective_pairing.
Defined.

(** C3, counterexample.  "he" and "him" are different words with the same
    vector.  The identification with these ends returns, and the cosine of
    the difference of the ends with the stored direction is [NaN]: it is
    not [≥ 0]. *)
Lemma identify_direction_nan_cosine :
  exists h' o' d v_positive v_negative,
    _identify_direction no_PCA 0%nat "he" "him"
      (OnePair ["he"; "she"]%string) "single" heap0 = (inr tt, h') /\
    instances h' !! 0%nat = Some o' /\
    direction o' = Some d /\
    __getitem__ 0%nat "he" h' = (inr v_positive, h') /\
    __getitem__ 0%nat "him" h' = (inr v_negative, h') /\
    fge (cosine_similarity (vsub v_positive v_negative) d) 0%float = false.
Proof.
  set (r := _identify_direction no_PCA 0%nat "he" "him"
              (OnePair ["he"; "she"]%string) "single" heap0).
  exists (snd r),
    (mkBiasWordsEmbedding 0%nat false false (Some [1; 0]%float)
       (Some "he"%string) (Some "him"%string)),
    [1; 0]%float, he, him.
  repeat split; try (apply run_of); vm_compute; reflexivity.
Qed.

(** C4, counterexample.  The rows of "left" and "right" are mirror images
    of each other across the direction identified from "he" and "she",
    which has norm one.  The norm of the rejected centre of the pair is
    computed as 1.0000000000000002, so that the radicand is below zero:
    the scaling factor is [NaN], where the clamped formula gives 0, and
    [_equalize] on the pair returns and leaves [NaN] in every coordinate
    of the two rows. *)
Lemma scaling_factor_nan_beyond_unit :
  exists h1 h2 o d,
    _identify_direction no_PCA 0%nat "he" "she"
      (OnePair ["he"; "she"]%string) "single" heap_mirror = (inr tt, h1) /\
    instances h1 !! 0%nat = Some o /\
    direction o = Some d /\
    norm d = 1%float /\
    let rejected_center :=
      snd (project_reject_vector (pair_center mirror1 mirror2) d) in
    norm rejected_center = 0x1.0000000000001p+0%float /\
    flt (radicand rejected_center) 0%float = true /\
    scaling_factor rejected_center = NaN /\
    clamped_scaling_factor rejected_center = 0%float /\
    _equalize 0%nat (Some [["left"; "right"]]%string) h1 = (inr tt, h2) /\
    __getitem__ 0%nat "left" h2 = (inr [NaN; NaN; NaN], h2) /\
    __getitem__ 0%nat "right" h2 = (inr [NaN; NaN; NaN], h2).
Proof.
  set (r1 := _identify_direction no_PCA 0%nat "he" "she"
               (OnePair ["he"; "she"]%string) "single" heap_mirror).
  set (r2 := _equalize 0%nat (Some [["left"; "right"]]%string) (snd r1)).
  exists (snd r1), (snd r2),
    (mkBiasWordsEmbedding 0%nat false false (Some [1; 0; 0]%float)
       (Some "he"%string) (Some "she"%string)),
    [1; 0; 0]%float.
  repeat split; try (apply run_of); vm_compute; reflexivity.
Qed.

(** A hard debias of a copy. *)
Lemma debias_not_inplace_leaves_original_witness :
  let h' := snd (debias 0%nat "hard" (Some ["nurse"]%string)
                   (Some [["boy"; "girl"]]%string) false heap1) in
  instances h' !! 0%nat = Some identified /\
  models h' !! model identified = Some store /\
  (forall l o0, instances heap1 !! l = Some o0 ->
                instances h' !! l = Some o0) /\
  (forall m kv0, models heap1 !! m = Some kv0 -> models h' !! m = Some kv0).
Proof.
  apply (debias_not_inplace_leaves_original 0%nat identified store "hard"
           (Some ["nurse"]%string) (Some [["boy"; "girl"]]%string) heap1).
  - exact heap1_instance.
  - exact heap1_model.
Defined.

(** The neutral words of the example, "he" and "she" being specific. *)
Lemma extract_neutral_words_complement_witness :
  (exists neutral_words,
      _extract_neutral_words str_lower str_upper str_title 0%nat
        ["he"; "she"]%string heap1 = (inr neutral_words, heap1) /\
      forall w, In w neutral_words
                <-> In w (vocab store) /\
                    forall s, In s ["he"; "she"]%string ->
                              ~ case_variant str_lower str_upper str_title
                                  s w) /\
  (forall d method equality_sets,
      direction identified = Some d ->
      In method ["hard"; "neutralize"]%string ->
      debias 0%nat method None equality_sets true heap1
      = (inl (TypeError "'NoneType' object is not iterable"), heap1)).
Proof.
  apply (extract_neutral_words_complement str_lower str_upper str_title
           0%nat identified store ["he"; "she"]%string heap1).
  - exact heap1_instance.
  - exact heap1_model.
Defined.

(** C6, counterexample.  On the example, with "he" and "she" as specific
    words, [debias] given the extracted neutral words returns, and [debias]
    given no neutral words raises a [TypeError]: it does not fall back on
    the extracted words. *)
Lemma debias_no_default_neutral_words :
  exists neutral_words,
    _extract_neutral_words str_lower str_upper str_title 0%nat
      ["he"; "she"]%string heap1 = (inr neutral_words, heap1) /\
    fst (debias 0%nat "neutralize" (Some neutral_words) None true heap1)
    = inr None /\
    debias 0%nat "neutralize" None None true heap1
    = (inl (TypeError "'NoneType' object is not iterable"), heap1).
Proof.
  destruct (extract_neutral_words_run str_lower str_upper str_title 0%nat
              identified store ["he"; "she"]%string heap1
              heap1_instance heap1_model) as [nw [Hrun Hnw]].
  exists nw. split; [exact Hrun |]. split.
  - apply (debias_neutralize_returns 0%nat identified gender store nw
             None true heap1 heap1_instance eq_refl heap1_model).
    intros x Hx. now apply Hnw in Hx.
  - apply (debias_without_neutral_words 0%nat identified gender
             "neutralize" None heap1 heap1_instance eq_refl).
    simpl. tauto.
Qed.

(** The calls on the instance of the example before identification. *)
Lemma direction_not_identified_fails_fast_witness :
  (forall word,
      project_on_direction 0%nat word heap0
      = (inl RuntimeError_direction_not_identified, heap0)) /\
  (forall neutral_words c,
      calc_direct_bias power_one unsorted 0%nat neutral_words c heap0
      = (inl RuntimeError_direction_not_identified, heap0)) /\
  (forall word1 word2,
      calc_indirect_bias 0%nat word1 word2 heap0
      = (inl RuntimeError_direction_not_identified, heap0)) /\
  (forall neutral_words,
      _neutralize 0%nat neutral_words heap0
      = (inl RuntimeError_direction_not_identified, heap0)) /\
  (forall method neutral_words equality_sets,
      In method ["hard"; "neutralize"]%string ->
      debias 0%nat method neutral_words equality_sets true heap0
      = (inl RuntimeError_direction_not_identified, heap0)
      /\ debias 0%nat method neutral_words equality_sets false heap0
         = (inl RuntimeError_direction_not_identified,
            deepcopy_heap unidentified store heap0)).
Proof.
  apply (direction_not_identified_fails_fast power_one unsorted 0%nat
           unidentified store heap0).
  - exact heap0_instance.
  - exact heap0_model.
  - reflexivity.
Defined.

(** Learning from the seeds "he" and "she" with a cap of 2, the examples
    being reversed for a shuffle, and with a classifier that records its
    training set. *)
Lemma learn_full_specific_words_dataset_witness :
  exists data,
    collect_examples 0%nat ["he"; "she"]%string 2%Z (vocab store) [] 0%Z heap1
    = (inr data, heap1) /\
    List.filter (fun d : vec * bool => snd d) data
    = map (fun w => (row store w, true))
        (List.filter (fun w => in_list w ["he"; "she"]%string)
           (vocab store)) /\
    List.filter (fun d : vec * bool => negb (snd d)) data
    = capped_others store ["he"; "she"]%string 2%Z /\
    let X := features (reversed data) in
    let y := labels (reversed data) in
    Permutation (combine X y)
      (map as_training_example
         (vocabulary_dataset store ["he"; "she"]%string 2%Z)) /\
    learn_full_specific_words reversed recorder recording_fit predict_none
      0%nat ["he"; "she"]%string (Some 2%Z) (Some true) heap1
    = match vocabulary_dataset store ["he"; "she"]%string 2%Z with
      | [] => (inl (ValueError "not enough values to unpack"), heap1)
      | _ :: _ =>
          match recording_fit X y with
          | inl e => (inl e, heap1)
          | inr c =>
              (inr (mkLearned recorder
                      (List.filter
                         (fun w => predict_none c (normalize (row store w)))
                         (vocab store))
                      c (Some (X, y))), heap1)
          end
      end.
Proof.
  apply (learn_full_specific_words_dataset reversed recorder recording_fit
           predict_none 0%nat identified store ["he"; "she"]%string
           (Some 2%Z) (Some true) heap1).
  - intros l. apply Permutation_rev.
  - exact heap1_instance.
  - exact heap1_model.
Defined.

(** C9, counterexample.  Of the seed words "he" and "queen" the second is
    not in the vocabulary.  The call returns, and the classifier has been
    fitted on six examples, one of them labelled true: the seed "queen" is
    not among them, so that the training set is no rearrangement of the
    dataset that holds every seed word. *)
Lemma learn_skips_seed_outside_vocabulary :
  exists r X y,
    learn_full_specific_words reversed recorder recording_fit predict_none
      0%nat ["he"; "queen"]%string None None heap1 = (inr r, heap1) /\
    clf recorder r = (X, y) /\
    length X = 6%nat /\
    List.filter (Z.eqb 1) y = [1%Z] /\
    length (spec_dataset store ["he"; "queen"]%string
              MAX_NON_SPECIFIC_EXAMPLES) = 7%nat /\
    ~ Permutation (combine X y)
        (map as_training_example
           (spec_dataset store ["he"; "queen"]%string
              MAX_NON_SPECIFIC_EXAMPLES)).
Proof.
  set (c := learn_full_specific_words reversed recorder recording_fit
              predict_none 0%nat ["he"; "queen"]%string None None heap1).
  assert (Hc : exists r, fst c = inr r /\ snd c = heap1 /\
                         length (fst (clf recorder r)) = 6%nat /\
                         length (snd (clf recorder r)) = 6%nat /\
                         List.filter (Z.eqb 1) (snd (clf recorder r))
                         = [1%Z]).
  { eexists. vm_compute. repeat split; reflexivity. }
  destruct Hc as (r & Hr & Hh & HX & Hy & Hone).
  exists r, (fst (clf recorder r)), (snd (clf recorder r)).
  split; [rewrite <- Hh; now apply run_of |].
  split; [apply surjective_pairing |].
  split; [exact HX |]. split; [exact Hone |]. split; [reflexivity |].
  intros Hp. apply Permutation_length in Hp.
  rewrite length_map in Hp.
  rewrite length_combine, HX, Hy in Hp. vm_compute in Hp. discriminate.
Qed.

(** A neutralize debias of a copy returns the copy. *)
Lemma debias_return_value_witness :
  let h' := snd (debias 0%nat "neutralize" (Some ["nurse"]%string) None
                   false heap1) in
  let kv' := snd (debias_store (direction identified) "neutralize"
                    (Some ["nurse"]%string) None store) in
  (exists b c,
      Some (fresh (dom (instances heap1))) = Some b /\ b <> 0%nat /\
      instances heap1 !! b = None /\
      instances h' !! b = Some c /\
      models heap1 !! model c = None /\
      models h' !! model c = Some kv' /\
      models h' !! model identified = Some store /\
      direction c = direction identified /\
      positive_end c = positive_end identified /\
      negative_end c = negative_end identified) /\
  vocab kv' = vocab store /\
  ("neutralize"%string = "neutralize"%string ->
   exists d words,
     direction identified = Some d /\ Some ["nurse"]%string = Some words /\
     forall w v,
       word_vec store w = Some v ->
       word_vec kv' w
       = Some (renormalized_row
                 (Nat.iter (count_occ string_dec words w)
                    (fun x => reject_vector x d) v))) /\
  ("neutralize"%string = "hard"%string ->
   exists d words sets,
     direction identified = Some d /\ Some ["nurse"]%string = Some words /\
     None = Some sets /\
     kv' = init_sims_replace
             (snd (equalize_rows (Some d) sets
                     (init_sims_replace
                        (snd (neutralize_rows d words store)))))) /\
  ("neutralize"%string = "soft"%string -> kv' = store).
Proof.
  apply (debias_return_value 0%nat identified store "neutralize"
           (Some ["nurse"]%string) None false heap1
           (Some (fresh (dom (instances heap1))))).
  - exact heap1_instance.
  - exact heap1_model.
  - apply (debias_neutralize_returns 0%nat identified gender store
             ["nurse"]%string None false heap1 heap1_instance eq_refl
             heap1_model).
    apply in_store. reflexivity.
Defined.

End Runs.

(** ** The further properties on the small embedding *)

Section FurtherRuns.
Import Example ExampleFacts ExamplePCA.


Lemma not_in_store (w : string) :
  contains store w = false -> ~ In w (vocab store).
Proof.
  intros H Hin. apply contains_iff_vocab in Hin. congruence.
Qed.


(** A hard debias of the example, in place and on a copy. *)
Lemma debias_copy_same_store_witness :
  exists (e : option exn) (kv' : KeyedVectors),
    debias 0%nat "hard" (Some ["nurse"]%string)
      (Some [["boy"; "girl"]]%string) true heap1
    = (result_of e None, with_store heap1 (model identified) kv') /\
    debias 0%nat "hard" (Some ["nurse"]%string)
      (Some [["boy"; "girl"]]%string) false heap1
    = (result_of e (Some (fresh (dom (instances heap1)))),
       with_store (deepcopy_heap identified store heap1)
         (fresh (dom (models heap1))) kv') /\
    vocab kv' = vocab store.
Proof.
  apply (debias_copy_same_store 0%nat identified store "hard"
           (Some ["nurse"]%string) (Some [["boy"; "girl"]]%string) heap1).
  - exact heap1_instance.
  - exact heap1_model.
Defined.


(** A method that is not one of the three. *)
Lemma debias_invalid_method_witness :
  debias 0%nat "soften" (Some ["nurse"]%string) None true heap1
  = (inl (ValueError_method DEBIAS_METHODS "soften"), heap1) /\
  debias 0%nat "soften" (Some ["nurse"]%string) None false heap1
  = (inl (ValueError_method DEBIAS_METHODS "soften"),
     deepcopy_heap identified store heap1).
Proof.
  apply (debias_invalid_method 0%nat identified store "soften"
           (Some ["nurse"]%string) None heap1).
  - exact heap1_instance.
  - exact heap1_model.
  - simpl. intros [H | [H | [H | []]]]; discriminate.
Defined.


Lemma debias_soft_does_nothing_witness :
  debias 0%nat "soft" (Some ["nurse"]%string)
    (Some [["boy"; "girl"]]%string) true heap1 = (inr None, heap1) /\
  debias 0%nat "soft" (Some ["nurse"]%string)
    (Some [["boy"; "girl"]]%string) false heap1
  = (inr (Some (fresh (dom (instances heap1)))),
     deepcopy_heap identified store heap1).
Proof.
  apply (debias_soft_does_nothing 0%nat identified store
           (Some ["nurse"]%string) (Some [["boy"; "girl"]]%string) heap1).
  - exact heap1_instance.
  - exact heap1_model.
Defined.


(** Neutralizing "boy", the unknown word "queen", and "nurse". *)
Lemma neutralize_missing_word_partial_witness :
  exists kv',
    _neutralize 0%nat (Some (["boy"%string] ++ "queen"%string :: ["nurse"%string])) heap1
    = (inl (KeyError "queen"), with_store heap1 (model identified) kv') /\
    forall x v,
      word_vec store x = Some v ->
      word_vec kv' x
      = Some (if in_list x ["boy"]%string
              then reject_vector v gender else v).
Proof.
  apply (neutralize_missing_word_partial 0%nat identified store heap1
           gender ["boy"]%string ["nurse"]%string "queen").
  - exact heap1_instance.
  - exact heap1_model.
  - reflexivity.
  - constructor; [simpl; tauto | constructor].
  - apply in_store. reflexivity.
  - apply not_in_store. reflexivity.
Defined.


Lemma neutralize_other_words_rescaled_witness :
  exists h',
    _neutralize 0%nat (Some ["nurse"]%string) heap1 = (inr tt, h') /\
    __getitem__ 0%nat "boy" h'
    = (inr (vdivs boy (norm boy)), h').
Proof.
  apply (neutralize_other_words_rescaled 0%nat identified store heap1
           gender boy ["nurse"]%string "boy").
  - exact heap1_instance.
  - exact heap1_model.
  - reflexivity.
  - apply in_store. reflexivity.
  - simpl. intros [H | []]. discriminate.
  - reflexivity.
Defined.


Lemma calc_indirect_bias_symmetric_witness :
  calc_indirect_bias 0%nat "boy" "nurse" heap1
  = calc_indirect_bias 0%nat "nurse" "boy" heap1
  /\ snd (calc_indirect_bias 0%nat "boy" "nurse" heap1) = heap1.
Proof.
  apply (calc_indirect_bias_symmetric 0%nat identified store heap1
           gender "boy" "nurse").
  - exact heap1_instance.
  - exact heap1_model.
  - reflexivity.
  - apply (in_store ["boy"]%string); [reflexivity | now left].
  - apply (in_store ["nurse"]%string); [reflexivity | now left].
Defined.


(** Neutralizing all but the variants of "he" and "she". *)
Lemma neutralize_extracted_neutral_words_witness :
  exists neutral_words h',
    _extract_neutral_words str_lower str_upper str_title 0%nat
      ["he"; "she"]%string heap1 = (inr neutral_words, heap1) /\
    _neutralize 0%nat (Some neutral_words) heap1 = (inr tt, h') /\
    forall s v,
      In s ["he"; "she"]%string -> word_vec store s = Some v ->
      __getitem__ 0%nat s h' = (inr (vdivs v (norm v)), h').
Proof.
  apply (neutralize_extracted_neutral_words str_lower str_upper str_title
           0%nat identified store gender ["he"; "she"]%string heap1).
  - exact heap1_instance.
  - exact heap1_model.
  - reflexivity.
Defined.


Lemma filter_words_by_model_keeps_vocabulary_witness :
  exists kept,
    _filter_words_by_model 0%nat ["he"; "queen"; "he"]%string heap1
    = (inr kept, heap1) /\
    kept = List.filter (contains store) ["he"; "queen"; "he"]%string /\
    _filter_words_by_model 0%nat kept heap1 = (inr kept, heap1) /\
    (forall w, In w kept
               <-> In w ["he"; "queen"; "he"]%string /\ In w (vocab store)) /\
    (forall w, In w kept ->
               exists v, __getitem__ 0%nat w heap1 = (inr v, heap1)) /\
    (forall w, count_occ string_dec kept w
               = if contains store w
                 then count_occ string_dec ["he"; "queen"; "he"]%string w
                 else 0%nat).
Proof.
  apply (filter_words_by_model_keeps_vocabulary 0%nat identified store heap1
           ["he"; "queen"; "he"]%string).
  - exact heap1_instance.
  - exact heap1_model.
Defined.


Lemma copy_shares_store_witness :
  exists b h1 c,
    __copy__ 0%nat heap1 = (inr b, h1) /\
    b <> 0%nat /\
    instances h1 !! 0%nat = Some identified /\
    instances h1 !! b = Some c /\
    model c = model identified /\
    only_lower c = false /\ _verbose c = false /\
    direction c = direction identified /\
    positive_end c = positive_end identified /\
    negative_end c = negative_end identified /\
    models h1 = models heap1 /\
    forall method neutral_words equality_sets,
      models (snd (debias b method neutral_words equality_sets true h1))
      = models (snd (debias 0%nat method neutral_words equality_sets true
                       heap1))
      /\ fst (debias b method neutral_words equality_sets true h1)
         = fst (debias 0%nat method neutral_words equality_sets true heap1).
Proof.
  apply (copy_shares_store 0%nat identified store heap1).
  - exact heap1_instance.
  - exact heap1_model.
Defined.


(** Learning with a seed word that is not in the vocabulary and no other
    example allowed. *)
Lemma learn_without_examples_raises_witness :
  training_set reversed 0%nat ["queen"]%string (Some 0%Z) heap1
  = (inl (ValueError "not enough values to unpack"), heap1) /\
  learn_full_specific_words reversed unit (fun _ _ => inr tt)
    (fun _ _ => true) 0%nat ["queen"]%string (Some 0%Z) None heap1
  = (inl (ValueError "not enough values to unpack"), heap1).
Proof.
  apply (learn_without_examples_raises reversed unit (fun _ _ => inr tt)
           (fun _ _ => true) 0%nat identified store ["queen"]%string 0%Z
           None heap1).
  - intros l. apply Permutation_rev.
  - exact heap1_instance.
  - exact heap1_model.
  - intros w Hw [<- | []]. revert Hw. apply not_in_store. reflexivity.
  - reflexivity.
Defined.


Lemma learn_he_run :
  exists r,
    learn_full_specific_words reversed unit (fun _ _ => inr tt)
      (fun _ _ => true) 0%nat ["he"]%string (Some 1%Z) (Some true) heap1
    = (inr r, snd (learn_full_specific_words reversed unit
                     (fun _ _ => inr tt) (fun _ _ => true) 0%nat
                     ["he"]%string (Some 1%Z) (Some true) heap1)).
Proof.
  assert (Ht : exists X y,
             training_set reversed 0%nat ["he"]%string (Some 1%Z) heap1
             = (inr (X, y), heap1)).
  { unfold training_set.
    rewrite (bind_inr _ _ _ _ _ (get_instance_some _ _ _ heap1_instance)).
    rewrite (bind_inr _ _ _ _ _ (get_model_some _ _ _ heap1_model)).
    rewrite (bind_inr _ _ _ _ _
               (collect_examples_run 0%nat identified store ["he"]%string
                  1%Z heap1 heap1_instance heap1_model (vocab store) [] 0%Z
                  (fun w H => H))).
    eexists _, _. reflexivity. }
  destruct Ht as (X & y & Ht).
  unfold learn_full_specific_words.
  rewrite (bind_inr _ _ _ _ _ Ht). unfold lift_exn at 1.
  unfold bind at 1.
  rewrite (bind_inr _ _ _ _ _ (get_instance_some _ _ _ heap1_instance)).
  rewrite (bind_inr _ _ _ _ _ (get_model_some _ _ _ heap1_model)).
  rewrite (bind_inr _ _ _ _ _
             (map_M_run _ (fun w => (w, normalize (row store w)))
                (vocab store) heap1
                (fun w Hw =>
                   match word_vec_in_vocab store w Hw with
                   | ex_intro _ v Hv =>
                       eq_trans
                         (bind_inr _ _ _ _ _
                            (getitem_run _ _ _ _ _ _ heap1_instance
                               heap1_model Hv))
                         (f_equal (fun u => (inr (w, normalize u), heap1))
                            (eq_sym (f_equal (default [])  Hv)))
                   end))).
  eexists. reflexivity.
Qed.


(** Learning from the seed "he" and one other example. *)
Lemma learn_full_specific_words_result_witness :
  exists r h',
    learn_full_specific_words reversed unit (fun _ _ => inr tt)
      (fun _ _ => true) 0%nat ["he"]%string (Some 1%Z) (Some true) heap1
    = (inr r, h') /\
    h' = heap1 /\
    exists X y,
      training_set reversed 0%nat ["he"]%string (Some 1%Z) heap1
      = (inr (X, y), heap1) /\
      (fun (_ : list vec) (_ : list Z) => @inr exn unit tt) X y
      = inr (clf unit r) /\
      full_specific_words unit r
      = List.filter (fun w => (fun (_ : unit) (_ : vec) => true) (clf unit r)
                                (normalize (row store w)))
          (vocab store) /\
      debug_X_y unit r = Some (X, y).
Proof.
  destruct learn_he_run as [r Hr].
  exists r, (snd (learn_full_specific_words reversed unit
                    (fun _ _ => inr tt) (fun _ _ => true) 0%nat
                    ["he"]%string (Some 1%Z) (Some true) heap1)).
  split; [exact Hr |].
  apply (learn_full_specific_words_result reversed unit (fun _ _ => inr tt)
           (fun _ _ => true) 0%nat identified store ["he"]%string
           (Some 1%Z) (Some true) heap1 _ r).
  - exact heap1_instance.
  - exact heap1_model.
  - exact Hr.
Defined.


(** Identifying the direction from the pair ("he", "she"). *)
Lemma identify_direction_frame_witness :
  let h' := snd (_identify_direction no_PCA 0%nat "he" "she"
                   (OnePair ["he"; "she"]%string) "single" heap0) in
  models h' = models heap0 /\
  (forall other, other <> 0%nat ->
                 instances h' !! other = instances heap0 !! other) /\
  exists o d,
    instances heap0 !! 0%nat = Some o /\
    instances h' !! 0%nat = Some (with_direction o d "he" "she").
Proof.
  intros h'.
  apply (identify_direction_frame no_PCA 0%nat "he" "she"
           (OnePair ["he"; "she"]%string) "single" heap0 h' (inr tt)).
  unfold h'. rewrite <- identify_he_she_run. apply surjective_pairing.
Defined.


(** A first component that explains a quarter of the variance. *)
Lemma identify_direction_pca_threshold_witness :
  (flt 0x1p-2%float FIRST_PC_THRESHOLD = true ->
   _identify_direction weak_PCA 0%nat "he" "she" (Pairs [("he", "she")]%string)
     "pca" heap0
   = (inl (RuntimeError_first_pc 0x1p-2%float), heap0)) /\
  (is_nan 0x1p-2%float = true \/ fge 0x1p-2%float FIRST_PC_THRESHOLD = true ->
   forall (component : vec) (components : list vec)
          (v_positive v_negative : vec),
     [[1; 0]; [0; 1]]%float = component :: components ->
     word_vec store "he" = Some v_positive ->
     word_vec store "she" = Some v_negative ->
     _identify_direction weak_PCA 0%nat "he" "she"
       (Pairs [("he", "she")]%string) "pca" heap0
     = (inr tt,
        mkHeap (models heap0)
          (<[0%nat := with_direction unidentified
                        (if flt (cosine_similarity
                                   (vsub v_positive v_negative) component)
                              0%float
                         then vneg component else component)
                        "he" "she"]> (instances heap0)))).
Proof.
  apply (identify_direction_pca_threshold weak_PCA 0%nat unidentified store
           "he" "she" [("he", "she")]%string
           (mkPCA [0x1p-2; 0x1p-2]%float [[1; 0]; [0; 1]]%float)
           0x1p-2%float [0x1p-2%float] heap0).
  - exact heap0_instance.
  - exact heap0_model.
  - discriminate.
  - intros w1 w2 [E | []]. injection E as <- <-.
    split; apply (in_store ["he"; "she"]%string); simpl; auto.
  - reflexivity.
  - reflexivity.
Defined.


(** An equality set with the unknown word "queen". *)
Lemma equalize_missing_word_writes_nothing_witness :
  equalize_set 0%nat (["boy"%string] ++ "queen"%string :: ["girl"%string])
    heap1
  = (inl (KeyError "queen"), heap1) /\
  _equalize 0%nat
    (Some ([] ++ (["boy"%string] ++ "queen"%string :: ["girl"%string])
                 :: [["he"%string; "she"%string]]))
    heap1
  = (inl (KeyError "queen"), heap1).
Proof.
  apply (equalize_missing_word_writes_nothing 0%nat identified store []
           [["he"; "she"]]%string ["boy"]%string ["girl"]%string "queen"
           heap1 heap1).
  - exact heap1_instance.
  - exact heap1_model.
  - reflexivity.
  - apply in_store. reflexivity.
  - apply not_in_store. reflexivity.
Defined.


End FurtherRuns.
